(** * Pronunciation matching and spaced repetition: a verification development

    The matching utilities of the voice-practice hook ([normalizeString],
    [calculateSimilarity], [calculateMatch]) are embedded as they are written
    in the TypeScript source; the review operation of the progress engine,
    whose hook is not part of the sources at hand, is modelled from its
    specification. *)

From Stdlib Require Import ZArith NArith QArith Qround Qabs Qpower Qreduction.
From Stdlib Require Import Lia Lqa String Ascii SpecFloat.
From stdpp Require Import base decidable option list gmap strings.

Set Default Proof Using "Type".

(** ** JavaScript strings

    A JavaScript string is a finite sequence of UTF-16 code units; [length],
    indexing, [===] and [includes] all work on code units.  A code unit is a
    number below 65536, kept here as an [N]. *)

Abbreviation jsstring := (list N).

(** A string literal of the development, one code unit per character. *)
Definition str (s : string) : jsstring :=
  map N_of_ascii (list_ascii_of_string s).

Module Js.

(** The characters matched by [\s] and removed by [trim]: the WhiteSpace and
    LineTerminator productions of ECMAScript. *)
Definition isWhiteSpace (c : N) : bool :=
  ((9 <=? c) && (c <=? 13) || (c =? 32) || (c =? 160) || (c =? 5760)
   || (8192 <=? c) && (c <=? 8202) || (c =? 8232) || (c =? 8233)
   || (c =? 8239) || (c =? 8287) || (c =? 12288) || (c =? 65279))%N.

(** [a-z] and [0-9] of the character class. *)
Definition isLowerAZ (c : N) : bool := ((97 <=? c) && (c <=? 122))%N.

Definition isDigit (c : N) : bool := ((48 <=? c) && (c <=? 57))%N.

Definition space : N := 32%N.

(** [String.prototype.toLowerCase], one code unit at a time.  The Basic
    Latin capitals move to their small letters.  Two further code points
    have a lowercase form that contains a Basic Latin letter: U+0130
    (capital I with dot above), which becomes [i] followed by U+0307, and
    U+212A (Kelvin sign), which becomes [k].  Every other code unit is kept:
    its Unicode lowercase form lies outside [a-z0-9\s] exactly when the code
    unit itself does, and that is all the later stages of [normalizeString]
    look at. *)
Definition lowerUnit (c : N) : jsstring :=
  if ((65 <=? c) && (c <=? 90))%N then [(c + 32)%N]
  else if (c =? 304)%N then [105%N; 775%N]
  else if (c =? 8490)%N then [107%N]
  else [c].

Definition toLowerCase (s : jsstring) : jsstring := flat_map lowerUnit s.

Fixpoint trimStart (s : jsstring) : jsstring :=
  match s with
  | [] => []
  | c :: s' => if isWhiteSpace c then trimStart s' else s
  end.

Definition trimEnd (s : jsstring) : jsstring := rev (trimStart (rev s)).

(** [String.prototype.trim] *)
Definition trim (s : jsstring) : jsstring := trimEnd (trimStart s).

(** [String.prototype.includes]: the search string is tried at every start
    position in turn. *)
Fixpoint startsWith (t s : jsstring) : bool :=
  match t, s with
  | [], _ => true
  | _ :: _, [] => false
  | x :: t', y :: s' => if decide (x = y) then startsWith t' s' else false
  end.

Fixpoint includes (s t : jsstring) : bool :=
  startsWith t s ||
  match s with
  | [] => false
  | _ :: s' => includes s' t
  end.

(** *** Numbers

    A JavaScript number is an IEEE 754 binary64 value.  The integers the
    program handles (lengths, indices, matrix cells) are far below 2^53 and
    are exact, so they are kept as [Z] and [nat]; the one place where the
    program leaves the integers is the final quotient of
    [calculateSimilarity].  There every operation returns the binary64 value
    nearest to the exact result, ties going to the even significand.  A
    binary64 value is a rational, kept here as a reduced [Q]. *)

(** Nearest integer, ties to even. *)
Definition roundTiesToEven (q : Q) : Z :=
  let f := Qfloor q in
  match Qcompare (q - inject_Z f) (1 # 2) with
  | Lt => f
  | Gt => (f + 1)%Z
  | Eq => if Z.even f then f else (f + 1)%Z
  end.

(** The binary exponent of a positive rational: [2^k <= q < 2^(k+1)]. *)
Definition binaryExponent (q : Q) : Z :=
  let k := (Z.log2 (Qnum q) - Z.log2 (Zpos (Qden q)))%Z in
  if Qle_bool (2 ^ k) q then k else (k - 1)%Z.

(** Rounding to binary64: 53 significant bits, and no bit below 2^-1074.
    Overflow to infinity is left out: no value of the program exceeds 100. *)
Definition binary64 (q : Q) : Q :=
  if Qeq_bool q 0 then 0
  else
    let e := Z.max (binaryExponent (Qabs q) - 52) (-1074) in
    Qred (inject_Z (roundTiesToEven (q / 2 ^ e)) * 2 ^ e).

(** The operators [/], [-] and [*] on numbers.  The divisor of the program
    is a positive length, so division by zero is not modelled. *)
Definition div (x y : Q) : Q := binary64 (x / y).

Definition sub (x y : Q) : Q := binary64 (x - y).

Definition mul (x y : Q) : Q := binary64 (x * y).

(** [Math.round]: the nearest integer, a tie going up. *)
Definition round (x : Q) : Z := Qfloor (x + (1 # 2)).

End Js.

(** ** normalizeString *)

(** [.replace(/[^a-z0-9\s]/g, '')]: every code unit outside the class goes. *)
Definition keptByClass (c : N) : bool :=
  Js.isLowerAZ c || Js.isDigit c || Js.isWhiteSpace c.

Definition stripOthers (s : jsstring) : jsstring := List.filter keptByClass s.

(** [.replace(/\s+/g, ' ')]: each maximal run of white space becomes one
    space.  [inRun] tells that the code unit before was white space, that is,
    that the run under the cursor has already produced its space. *)
Fixpoint collapseFrom (inRun : bool) (s : jsstring) : jsstring :=
  match s with
  | [] => []
  | c :: s' =>
      if Js.isWhiteSpace c
      then (if inRun then collapseFrom true s'
            else Js.space :: collapseFrom true s')
      else c :: collapseFrom false s'
  end.

Definition collapseSpaces (s : jsstring) : jsstring := collapseFrom false s.

Definition normalizeString (s : jsstring) : jsstring :=
  collapseSpaces (stripOthers (Js.trim (Js.toLowerCase s))).

(** ** Running the imperative part

    [calculateSimilarity] fills a matrix in place.  A run either ends with a
    value or stops at a fault.  [TypeError] is what JavaScript raises when a
    row that does not exist is indexed.  JavaScript would go on silently after
    the other three (reading past the end of a row gives [undefined], hence
    [NaN]; a cell still holding [null] counts as 0; a write past the end of a
    row extends it): the model stops on them as well, so that a run that ends
    with a value is a run in which none of them happened. *)

Inductive fault : Type :=
| TypeError
| UndefinedRead
| NullRead
| WritePastEnd.

Inductive outcome (A : Type) : Type :=
| Ok (a : A)
| Throw (f : fault).

Arguments Ok {A} a.
Arguments Throw {A} f.

Definition bind {A B : Type} (m : outcome A) (k : A -> outcome B) : outcome B :=
  match m with
  | Ok a => k a
  | Throw f => Throw f
  end.

Notation "'let*' x ':=' m 'in' k" := (bind m (fun x => k))
  (at level 10, x name, m at level 100, k at level 200).

(** [for (let i = ...; ...; i++) body], the indices listed in order. *)
Fixpoint forEach {St : Type} (indices : list nat)
    (body : nat -> St -> outcome St) (s : St) : outcome St :=
  match indices with
  | [] => Ok s
  | i :: rest => let* s' := body i s in forEach rest body s'
  end.

(** A matrix cell holds [null] ([None]) until a number is stored in it. *)
Abbreviation matrix := (list (list (option Z))).

(** [Array(rows).fill(null).map(() => Array(cols).fill(null))]: the callback
    of [map] makes a new array for every row, so no two rows share cells. *)
Definition newMatrix (rows cols : nat) : matrix :=
  replicate rows (replicate cols None).

(** [matrix[i][j]] as an operand *)
Definition readCell (m : matrix) (i j : nat) : outcome Z :=
  match m !! i with
  | None => Throw TypeError
  | Some row =>
      match row !! j with
      | None => Throw UndefinedRead
      | Some None => Throw NullRead
      | Some (Some v) => Ok v
      end
  end.

(** [matrix[i][j] = v] *)
Definition writeCell (m : matrix) (i j : nat) (v : Z) : outcome matrix :=
  match m !! i with
  | None => Throw TypeError
  | Some row =>
      if decide (j < length row)
      then Ok (<[i := <[j := Some v]> row]> m)
      else Throw WritePastEnd
  end.

(** ** calculateSimilarity *)

(** [Math.round((1 - distance / maxLen) * 100)] *)
Definition percentage (distance maxLen : Z) : Z :=
  Js.round
    (Js.mul (Js.sub 1 (Js.div (inject_Z distance) (inject_Z maxLen))) 100).

Definition calculateSimilarity (str1 str2 : jsstring) : outcome Z :=
  let len1 := length str1 in
  let len2 := length str2 in
  if (len1 =? 0)%nat then Ok (if (len2 =? 0)%nat then 100 else 0)%Z
  else if (len2 =? 0)%nat then Ok 0%Z
  else
    let matrix0 := newMatrix (len1 + 1) (len2 + 1) in
    let* matrix1 := forEach (seq 0 (len1 + 1))
                 (fun i m => writeCell m i 0 (Z.of_nat i)) matrix0 in
    let* matrix2 := forEach (seq 0 (len2 + 1))
                 (fun j m => writeCell m 0 j (Z.of_nat j)) matrix1 in
    let* matrix3 := forEach (seq 1 len1)
                 (fun i m =>
                    forEach (seq 1 len2)
                      (fun j m =>
                         let cost :=
                           if decide (str1 !! (i - 1)%nat = str2 !! (j - 1)%nat)
                           then 0%Z else 1%Z in
                         let* up := readCell m (i - 1) j in
                         let* left := readCell m i (j - 1) in
                         let* diag := readCell m (i - 1) (j - 1) in
                         writeCell m i j
                           (Z.min (Z.min (up + 1) (left + 1)) (diag + cost)))
                      m)
                 matrix2 in
    let* distance := readCell matrix3 len1 len2 in
    let maxLen := Z.max (Z.of_nat len1) (Z.of_nat len2) in
    Ok (percentage distance maxLen).

(** ** calculateMatch *)

Inductive Feedback : Type :=
| perfect
| excellent
| good
| close
| partial
| tryagain
| different.

Record VoicePracticeResult : Type := mkResult {
  score : Z;
  feedback : Feedback;
  transcript : jsstring
}.

(** The loop over the alternatives, which returns from [calculateMatch] at
    the first alternative that normalizes to the target. *)
Fixpoint checkAlternatives (normalizedTarget spoken : jsstring)
    (alternatives : list jsstring) : option VoicePracticeResult :=
  match alternatives with
  | [] => None
  | alt :: rest =>
      if decide (normalizeString alt = normalizedTarget)
      then Some (mkResult 95 excellent spoken)
      else checkAlternatives normalizedTarget spoken rest
  end.

Definition calculateMatch (target spoken : jsstring)
    (alternatives : list jsstring) : outcome VoicePracticeResult :=
  let normalizedTarget := normalizeString target in
  let normalizedSpoken := normalizeString spoken in
  if decide (normalizedTarget = normalizedSpoken)
  then Ok (mkResult 100 perfect spoken)
  else
    match checkAlternatives normalizedTarget spoken alternatives with
    | Some r => Ok r
    | None =>
        let* similarity := calculateSimilarity normalizedTarget normalizedSpoken in
        if Js.includes normalizedSpoken normalizedTarget
        then Ok (mkResult (Z.max similarity 85) good spoken)
        else if Js.includes normalizedTarget normalizedSpoken
                && (2 <? length normalizedSpoken)%nat
        then Ok (mkResult (Z.max similarity 70) partial spoken)
        else if (80 <=? similarity)%Z
        then Ok (mkResult similarity good spoken)
        else if (60 <=? similarity)%Z
        then Ok (mkResult similarity close spoken)
        else if (40 <=? similarity)%Z
        then Ok (mkResult similarity tryagain spoken)
        else Ok (mkResult similarity different spoken)
    end.

(** ** What the specification speaks of *)

Section EditDistance.

Context {A : Type} `{EqDecision A}.

(** One single-character edit, anywhere in the string: an insertion, a
    deletion or a substitution. *)
Inductive edit1 : list A -> list A -> Prop :=
| edit_insert (x : A) (l : list A) : edit1 l (x :: l)
| edit_delete (x : A) (l : list A) : edit1 (x :: l) l
| edit_substitute (x y : A) (l : list A) : edit1 (x :: l) (y :: l)
| edit_later (x : A) (l l' : list A) : edit1 l l' -> edit1 (x :: l) (x :: l').

(** [edits n a b]: [n] single-character edits transform [a] into [b]. *)
Inductive edits : nat -> list A -> list A -> Prop :=
| edits_none (l : list A) : edits 0 l l
| edits_more (n : nat) (l1 l2 l3 : list A) :
    edit1 l1 l2 -> edits n l2 l3 -> edits (S n) l1 l3.

(** The edit distance is the least number of edits that does it. *)
Definition editDistance (a b : list A) (d : nat) : Prop :=
  edits d a b /\ forall n, edits n a b -> d <= n.

(** The recurrence of the dynamic programme, as a function of the two
    strings. *)
Fixpoint lev (a b : list A) : nat :=
  match a with
  | [] => length b
  | x :: a' =>
      (fix levRow (b : list A) : nat :=
         match b with
         | [] => S (length a')
         | y :: b' =>
             Nat.min (Nat.min (lev a' (y :: b') + 1) (levRow b' + 1))
                     (lev a' b' + (if decide (x = y) then 0 else 1))
         end) b
  end.

End EditDistance.

(** [t] occurs in [s] as a substring. *)
Definition isSubstring (t s : jsstring) : Prop :=
  exists before after : jsstring, s = before ++ t ++ after.

(** What the similarity operation yields: 100 for two empty strings, 0 when
    exactly one is empty, and otherwise [Math.round((1 - d / L) * 100)] for
    the edit distance [d] and the longer length [L], in the arithmetic of
    the program ([percentage]). *)
Definition similarityIs (a b : jsstring) (similarity : Z) : Prop :=
  (a = [] /\ b = [] /\ similarity = 100%Z) \/
  ((a = [] /\ b <> [] \/ a <> [] /\ b = []) /\ similarity = 0%Z) \/
  (a <> [] /\ b <> [] /\
   exists d : nat,
     editDistance a b d /\
     similarity =
       percentage (Z.of_nat d) (Z.max (Z.of_nat (length a)) (Z.of_nat (length b)))).

(** The formula of the specification, [round((1 - d / L) * 100)], in exact
    arithmetic: the integer nearest to the exact value. *)
Definition exactPercentage (d L : Z) : Z :=
  Js.round ((1 - inject_Z d / inject_Z L) * 100).

(** The similarity in the words of the specification, to be compared with
    what [calculateSimilarity] returns: 100 for two empty strings, 0 when
    exactly one is empty, and otherwise [round((1 - d / L) * 100)] for the
    edit distance [d] and [L = max(len(a), len(b))]. *)
Definition specSimilarity (a b : jsstring) (similarity : Z) : Prop :=
  (a = [] /\ b = [] /\ similarity = 100%Z) \/
  ((a = [] /\ b <> [] \/ a <> [] /\ b = []) /\ similarity = 0%Z) \/
  (a <> [] /\ b <> [] /\
   exists d : nat,
     editDistance a b d /\
     similarity =
       exactPercentage (Z.of_nat d)
         (Z.max (Z.of_nat (length a)) (Z.of_nat (length b)))).

(** Rule 6: the tier by threshold. *)
Inductive tierOf (similarity : Z) : Feedback -> Prop :=
| tier_good : (80 <= similarity)%Z -> tierOf similarity good
| tier_close : (60 <= similarity < 80)%Z -> tierOf similarity close
| tier_tryagain : (40 <= similarity < 60)%Z -> tierOf similarity tryagain
| tier_different : (similarity < 40)%Z -> tierOf similarity different.

(** The ordered rule set: a rule applies only when none before it does. *)
Inductive classify (target spokenPrimary : jsstring)
    (alternatives : list jsstring) : Z -> Feedback -> Prop :=
| rule_exact :
    normalizeString spokenPrimary = normalizeString target ->
    classify target spokenPrimary alternatives 100 perfect
| rule_alternative :
    normalizeString spokenPrimary <> normalizeString target ->
    (exists alt, alt ∈ alternatives /\
                 normalizeString alt = normalizeString target) ->
    classify target spokenPrimary alternatives 95 excellent
| rule_contains (similarity : Z) :
    normalizeString spokenPrimary <> normalizeString target ->
    ~ (exists alt, alt ∈ alternatives /\
                   normalizeString alt = normalizeString target) ->
    similarityIs (normalizeString target) (normalizeString spokenPrimary)
      similarity ->
    isSubstring (normalizeString target) (normalizeString spokenPrimary) ->
    classify target spokenPrimary alternatives (Z.max similarity 85) good
| rule_contained (similarity : Z) :
    normalizeString spokenPrimary <> normalizeString target ->
    ~ (exists alt, alt ∈ alternatives /\
                   normalizeString alt = normalizeString target) ->
    similarityIs (normalizeString target) (normalizeString spokenPrimary)
      similarity ->
    ~ isSubstring (normalizeString target) (normalizeString spokenPrimary) ->
    isSubstring (normalizeString spokenPrimary) (normalizeString target) ->
    2 < length (normalizeString spokenPrimary) ->
    classify target spokenPrimary alternatives (Z.max similarity 70) partial
| rule_threshold (similarity : Z) (tier : Feedback) :
    normalizeString spokenPrimary <> normalizeString target ->
    ~ (exists alt, alt ∈ alternatives /\
                   normalizeString alt = normalizeString target) ->
    similarityIs (normalizeString target) (normalizeString spokenPrimary)
      similarity ->
    ~ isSubstring (normalizeString target) (normalizeString spokenPrimary) ->
    ~ (isSubstring (normalizeString spokenPrimary) (normalizeString target) /\
       2 < length (normalizeString spokenPrimary)) ->
    tierOf similarity tier ->
    classify target spokenPrimary alternatives similarity tier.

(** The score that goes with a tier. *)
Definition scoreFits (tier : Feedback) (s : Z) : Prop :=
  match tier with
  | perfect => s = 100
  | excellent => s = 95
  | good => 80 <= s
  | partial => 70 <= s
  | close => 60 <= s <= 79
  | tryagain => 40 <= s <= 59
  | different => 0 <= s <= 39
  end%Z.

(** The output alphabet of [normalizeString]. *)
Definition isNormalUnit (c : N) : Prop :=
  Js.isLowerAZ c = true \/ Js.isDigit c = true \/ c = Js.space.

(** ** The binary64 arithmetic of the Standard Library

    The same quotient evaluated with the IEEE 754 operations of [SpecFloat],
    at precision 53 and maximal exponent 1024, to compare [Js.div], [Js.sub]
    and [Js.mul] with. *)

Module Binary64.

Definition ofZ (n : Z) : spec_float := binary_normalize 53 1024 n 0 false.

Definition toQ (x : spec_float) : option Q :=
  match x with
  | S754_zero _ => Some 0%Q
  | S754_finite s m e =>
      Some (Qred (inject_Z (if s then Z.neg m else Z.pos m) * 2 ^ e))
  | S754_infinity _ | S754_nan => None
  end.

(** [(1 - distance / maxLen) * 100] *)
Definition scaled (distance maxLen : Z) : spec_float :=
  SFmul 53 1024
    (SFsub 53 1024 (ofZ 1) (SFdiv 53 1024 (ofZ distance) (ofZ maxLen)))
    (ofZ 100).

(** Both sides are reduced fractions, compared part by part. *)
Definition sameFraction (q r : Q) : bool :=
  (Qnum q =? Qnum r)%Z && (Qden q =? Qden r)%positive.

Definition agreesAt (distance maxLen : Z) : bool :=
  match toQ (scaled distance maxLen) with
  | Some q =>
      sameFraction q
        (Js.mul (Js.sub 1 (Js.div (inject_Z distance) (inject_Z maxLen))) 100)
  | None => false
  end.

(** All pairs [0 <= distance <= maxLen <= bound] with [1 <= maxLen]. *)
Definition agreesUpTo (bound : nat) : bool :=
  forallb
    (fun maxLen =>
       forallb (fun distance => agreesAt (Z.of_nat distance) (Z.of_nat maxLen))
         (seq 0 (S maxLen)))
    (seq 1 bound).

(** The quotient in binary64 against the quotient in exact arithmetic. *)
Definition exactAt (distance maxLen : Z) : bool :=
  (percentage distance maxLen
   =? Js.round ((1 - inject_Z distance / inject_Z maxLen) * 100))%Z.

Definition exactUpTo (bound : nat) : bool :=
  forallb
    (fun maxLen =>
       forallb (fun distance => exactAt (Z.of_nat distance) (Z.of_nat maxLen))
         (seq 0 (S maxLen)))
    (seq 1 bound).

End Binary64.

(** ** The review operation *)

Record CardProgress : Type := mkProgress {
  cardId : string;
  level : Z;
  lastReviewedAt : option Z;
  dueAt : option Z
}.

Inductive ReviewError : Type :=
| InvalidRating.

Definition msPerDay : Z := 86400000.

(** Modelled from the spec: the interval table of the scheduler (the
    progress hook is not among the sources), in days per level. *)
Definition intervalDays (lvl : Z) : Z :=
  if (lvl <=? 0)%Z then 0
  else if (lvl =? 1)%Z then 1
  else if (lvl =? 2)%Z then 3
  else if (lvl =? 3)%Z then 7
  else if (lvl =? 4)%Z then 14
  else 30.

(** Modelled from the spec: [recordReview] of the progress hook, which is not
    among the sources.  A rating outside 1..5 fails with [InvalidRating]; a
    rating of 3 or more promotes the card, up to level 5, a lower one demotes
    it, down to level 0; the card is due again after the interval of its new
    level, counted from [now]. *)
Definition recordReview (progress : CardProgress) (rating now : Z)
    : ReviewError + CardProgress :=
  if ((rating <? 1) || (5 <? rating))%Z then inl InvalidRating
  else
    let level' :=
      if (3 <=? rating)%Z then Z.min (level progress + 1) 5
      else Z.max (level progress - 1) 0 in
    inr (mkProgress (cardId progress) level' (Some now)
           (Some (now + intervalDays level' * msPerDay)%Z)).

(** Modelled from the spec: [getCardProgress] of the progress hook, which is
    not among the sources.  An absent record reads as an unseen card, due at
    once. *)
Definition getCardProgress (store : gmap string CardProgress) (id : string)
    : CardProgress :=
  default (mkProgress id 0 None None) (store !! id).

(** Modelled from the spec: [updateCardProgress], the entry point the review
    screen calls with a card and a rating; the progress hook is not among the
    sources.  It reviews the card's record and stores the outcome; the second
    component is the failure, if any. *)
Definition updateCardProgress (store : gmap string CardProgress) (id : string)
    (rating now : Z) : gmap string CardProgress * option ReviewError :=
  match recordReview (getCardProgress store id) rating now with
  | inl e => (store, Some e)
  | inr progress' => (<[id := progress']> store, None)
  end.

(** ** The matrix while it is being filled *)

(** The value the dynamic programme means to store in cell [(i, j)]: the
    distance between the first [i] code units of [str1] and the first [j] of
    [str2]. *)
Definition prefixDistance (str1 str2 : jsstring) (i j : nat) : Z :=
  Z.of_nat (lev (take i str1) (take j str2)).

(** [rows] rows of [cols] cells each. *)
Definition shaped (rows cols : nat) (m : matrix) : Prop :=
  length m = rows /\ forall (i : nat) (row : list (option Z)),
                       m !! i = Some row -> length row = cols.

(** The three loops of [calculateSimilarity] and the read of the last cell,
    on their own. *)
Definition matrixDistance (str1 str2 : jsstring) : outcome Z :=
  let len1 := length str1 in
  let len2 := length str2 in
  let matrix0 := newMatrix (len1 + 1) (len2 + 1) in
  let* matrix1 := forEach (seq 0 (len1 + 1))
               (fun i m => writeCell m i 0 (Z.of_nat i)) matrix0 in
  let* matrix2 := forEach (seq 0 (len2 + 1))
               (fun j m => writeCell m 0 j (Z.of_nat j)) matrix1 in
  let* matrix3 := forEach (seq 1 len1)
               (fun i m =>
                  forEach (seq 1 len2)
                    (fun j m =>
                       let cost :=
                         if decide (str1 !! (i - 1)%nat = str2 !! (j - 1)%nat)
                         then 0%Z else 1%Z in
                       let* up := readCell m (i - 1) j in
                       let* left := readCell m i (j - 1) in
                       let* diag := readCell m (i - 1) (j - 1) in
                       writeCell m i j
                         (Z.min (Z.min (up + 1) (left + 1)) (diag + cost)))
                    m)
               matrix2 in
  readCell matrix3 len1 len2.

(** The result [calculateSimilarity] is to return, with the recurrence [lev]
    standing for the matrix. *)
Definition levSimilarity (a b : jsstring) : Z :=
  match a, b with
  | [], [] => 100
  | [], _ :: _ => 0
  | _ :: _, [] => 0
  | _ :: _, _ :: _ =>
      percentage (Z.of_nat (lev a b))
        (Z.max (Z.of_nat (length a)) (Z.of_nat (length b)))
  end.

(** ** The voice-practice hook around calculateMatch

    The state of [useVoicePractice] and the two handlers that feed
    [calculateMatch]: [startListening], which stores the target word, and the
    [onresult] handler of the recognizer.  [isSupported] also stands for
    [recognitionRef.current] being set: both are decided once, by the presence
    of the recognition API.  The call to [recognition.start()] belongs to the
    browser and leaves the state alone. *)

Module VoicePractice.

Record state : Type := mkState {
  isSupported : bool;
  isListening : bool;
  transcript : jsstring;
  result : option VoicePracticeResult;
  error : option jsstring;
  targetWordRef : jsstring
}.

(** [startListening(targetWord)]: nothing happens without a recognizer or
    with the empty word. *)
Definition startListening (targetWord : jsstring) (st : state) : state :=
  if negb (isSupported st) || (length targetWord =? 0)%nat then st
  else
    mkState (isSupported st) (isListening st) []
      None None (Js.trim (Js.toLowerCase targetWord)).

(** [recognition.onresult]: [heard] lists the transcripts of
    [event.results[0]], best first, and [isFinal] is its flag.  Reading
    [results[0].transcript] of an empty result raises a [TypeError]. *)
Definition onresult (heard : list jsstring) (isFinal : bool) (st : state)
    : outcome state :=
  match heard with
  | [] => Throw TypeError
  | first :: _ =>
      let spokenText := Js.trim (Js.toLowerCase first) in
      if isFinal then
        let alternatives :=
          map (fun t => Js.trim (Js.toLowerCase t)) heard in
        let* matchResult :=
          calculateMatch (targetWordRef st) spokenText alternatives in
        Ok (mkState (isSupported st) (isListening st) spokenText
              (Some matchResult) (error st) (targetWordRef st))
      else
        Ok (mkState (isSupported st) (isListening st) spokenText
              (result st) (error st) (targetWordRef st))
  end.

End VoicePractice.

(** Letters and digits, the part of a string that [normalizeString] compares
    by. *)
Definition isAlnum (c : N) : bool := Js.isLowerAZ c || Js.isDigit c.

(** ** The flashcard decks

    [SlangFlashcards] steps through a deck with wrap-around.  [%] is the
    remainder of JavaScript, which takes the sign of the dividend; on an empty
    deck it would give [NaN], but the component then renders no buttons. *)

Module SlangFlashcards.

Record state : Type := mkState {
  currentIndex : Z;
  isFlipped : bool
}.

Definition flipCard (st : state) : state :=
  mkState (currentIndex st) (negb (isFlipped st)).

(** [setCurrentIndex((prev) => (prev + 1) % filteredCards.length)] *)
Definition nextCard (cards : Z) (st : state) : state :=
  mkState (Z.rem (currentIndex st + 1) cards) false.

(** [setCurrentIndex((prev) => (prev - 1 + filteredCards.length) %
    filteredCards.length)] *)
Definition prevCard (cards : Z) (st : state) : state :=
  mkState (Z.rem (currentIndex st - 1 + cards) cards) false.

End SlangFlashcards.

(** ** The review screen

    [VocabularyReview] calls the progress hook, which is not among the
    sources: [updateCardProgress] and [getCardProgress] are taken as they
    come, over any kind of progress store. *)

Module VocabularyReview.

Record SlangTerm : Type := mkTerm {
  id : string;
  term : string;
  meaning : string;
  example : string;
  category : string;
  difficulty : string
}.

Record SessionStats : Type := mkStats {
  reviewed : Z;
  correct : Z
}.

Record state (Store : Type) : Type := mkState {
  currentIndex : Z;
  isFlipped : bool;
  sessionStats : SessionStats;
  progress : Store
}.

Arguments mkState {Store} _ _ _ _.
Arguments currentIndex {Store} _.
Arguments isFlipped {Store} _.
Arguments sessionStats {Store} _.
Arguments progress {Store} _.

(** [currentCards[currentIndex]], [undefined] outside the deck. *)
Definition cardAt (currentCards : list SlangTerm) (index : Z)
    : option SlangTerm :=
  if (index <? 0)%Z then None else currentCards !! Z.to_nat index.

(** The index after a card is rated or skipped. *)
Definition advance (currentCards : list SlangTerm) (index : Z) : Z :=
  if (index <? Z.of_nat (length currentCards) - 1)%Z then (index + 1)%Z
  else 0%Z.

Section Handlers.

Context {Store : Type}.

Variable updateCardProgress : string -> Z -> Store -> Store.

Definition handleRate (currentCards : list SlangTerm) (rating : Z)
    (st : state Store) : state Store :=
  match cardAt currentCards (currentIndex st) with
  | None => st
  | Some currentCard =>
      mkState (advance currentCards (currentIndex st)) false
        (mkStats (reviewed (sessionStats st) + 1)
           (if (3 <=? rating)%Z then (correct (sessionStats st) + 1)%Z
            else correct (sessionStats st)))
        (updateCardProgress (id currentCard) rating (progress st))
  end.

Definition handleSkip (currentCards : list SlangTerm) (st : state Store)
    : state Store :=
  mkState (advance currentCards (currentIndex st)) false
    (sessionStats st) (progress st).

Definition resetSession (st : state Store) : state Store :=
  mkState 0 false (mkStats 0 0) (progress st).

(** What the user does on the review tab. *)
Inductive action : Type :=
| Rate (currentCards : list SlangTerm) (rating : Z)
| Skip (currentCards : list SlangTerm)
| Reset.

Definition perform (a : action) (st : state Store) : state Store :=
  match a with
  | Rate currentCards rating => handleRate currentCards rating st
  | Skip currentCards => handleSkip currentCards st
  | Reset => resetSession st
  end.

Definition performAll (actions : list action) (st : state Store)
    : state Store :=
  fold_left (fun s a => perform a s) actions st.

End Handlers.

Record CategoryStats : Type := mkCategoryStats {
  total : Z;
  learned : Z;
  mastered : Z
}.

(** [stats] is a plain object, [{}]: besides its own entries a look-up
    [stats[key]] finds what [Object.prototype] holds under [key].  These are
    the names of the members of [Object.prototype]; each of them is a
    function or, under [__proto__], the prototype itself, so what is found
    is truthy. *)
Definition objectPrototypeNames : list string :=
  [ "constructor"; "hasOwnProperty"; "isPrototypeOf"; "propertyIsEnumerable";
    "toLocaleString"; "toString"; "valueOf"; "__proto__";
    "__defineGetter__"; "__defineSetter__";
    "__lookupGetter__"; "__lookupSetter__" ]%string.

Definition inherited (key : string) : bool :=
  if decide (key ∈ objectPrototypeNames) then true else false.

(** The body of [slangData.forEach] in [categoryStats].  The map holds the
    entries of [stats] itself, which are what [Object.entries] shows.  When
    [stats] has no entry for the category and the category is one of the
    inherited names, [!stats[term.category]] is false: no entry is made,
    and the increments go to properties of the inherited member, not to
    [stats]. *)
Definition countTerm (getCardProgress : string -> CardProgress)
    (stats : gmap string CategoryStats) (t : SlangTerm)
    : gmap string CategoryStats :=
  if match stats !! category t with
     | None => inherited (category t)
     | Some _ => false
     end
  then stats else
  let stats1 :=
    match stats !! category t with
    | None => <[category t := mkCategoryStats 0 0 0]> stats
    | Some _ => stats
    end in
  let stats2 :=
    alter (fun s => mkCategoryStats (total s + 1) (learned s) (mastered s))
      (category t) stats1 in
  let cardProgress := getCardProgress (id t) in
  let stats3 :=
    if (1 <=? level cardProgress)%Z
    then alter (fun s => mkCategoryStats (total s) (learned s + 1) (mastered s))
           (category t) stats2
    else stats2 in
  if (5 <=? level cardProgress)%Z
  then alter (fun s => mkCategoryStats (total s) (learned s) (mastered s + 1))
         (category t) stats3
  else stats3.

Definition categoryStats (getCardProgress : string -> CardProgress)
    (slangData : list SlangTerm) : gmap string CategoryStats :=
  fold_left (countTerm getCardProgress) slangData ∅.

(** The terms of one category, and how many of them reach a level. *)
Definition inCategory (c : string) (slangData : list SlangTerm)
    : list SlangTerm :=
  List.filter (fun t => if decide (category t = c) then true else false)
    slangData.

Definition reaching (getCardProgress : string -> CardProgress) (lvl : Z)
    (terms : list SlangTerm) : Z :=
  Z.of_nat
    (length (List.filter
               (fun t => (lvl <=? level (getCardProgress (id t)))%Z) terms)).

(** The counts of [terms] added to the statistics [start] of a category;
    a category without statistics and without terms stays without. *)
Definition tally (getCardProgress : string -> CardProgress)
    (start : option CategoryStats) (terms : list SlangTerm)
    : option CategoryStats :=
  match start, terms with
  | None, [] => None
  | _, _ =>
      Some (mkCategoryStats
              (total (default (mkCategoryStats 0 0 0) start)
               + Z.of_nat (length terms))
              (learned (default (mkCategoryStats 0 0 0) start)
               + reaching getCardProgress 1 terms)
              (mastered (default (mkCategoryStats 0 0 0) start)
               + reaching getCardProgress 5 terms))
  end.

End VocabularyReview.

(** ** The feedback form *)

Module SessionFeedback.

(** [prev.includes(id) ? prev.filter(i => i !== id) : [...prev, id]] *)
Definition toggle (id : jsstring) (prev : list jsstring) : list jsstring :=
  if decide (id ∈ prev)
  then List.filter (fun i => if decide (i = id) then false else true) prev
  else prev ++ [id].

End SessionFeedback.

(** ** The speech-recognition hook

    [onresult] of [useSpeechRecognition] folds the results from
    [event.resultIndex] on.  A result is given by its flag and by the
    transcript and the confidence of its first alternative. *)

Module SpeechRecognition.

Record ResultItem : Type := mkItem {
  itemIsFinal : bool;
  itemTranscript : jsstring;
  itemConfidence : Q
}.

Record SpeechRecognitionResult : Type := mkResult {
  transcript : jsstring;
  confidence : Q;
  isFinal : bool
}.

(** [Math.max] of two numbers *)
Definition mathMax (a b : Q) : Q :=
  match Qcompare a b with
  | Lt => b
  | _ => a
  end.

(** [finalTranscript], [interimTranscript] and [bestConfidence] after one
    more turn of the loop. *)
Definition loopBody (acc : jsstring * jsstring * Q) (result : ResultItem)
    : jsstring * jsstring * Q :=
  match acc with
  | (finalTranscript, interimTranscript, bestConfidence) =>
      if itemIsFinal result
      then (finalTranscript ++ itemTranscript result, interimTranscript,
            mathMax bestConfidence (itemConfidence result))
      else (finalTranscript, interimTranscript ++ itemTranscript result,
            bestConfidence)
  end.

(** The record handed to [onResult]; [setTranscript] and [setConfidence]
    store its first two fields. *)
Definition onresult (resultIndex : nat) (results : list ResultItem)
    : SpeechRecognitionResult :=
  match fold_left loopBody (drop resultIndex results) ([], [], 0%Q) with
  | (finalTranscript, interimTranscript, bestConfidence) =>
      let currentTranscript :=
        match finalTranscript with
        | [] => interimTranscript
        | _ :: _ => finalTranscript
        end in
      mkResult currentTranscript bestConfidence
        (match finalTranscript with [] => false | _ :: _ => true end)
  end.

(** The texts of the final, or of the interim, results of a window. *)
Definition textOf (final : bool) (window : list ResultItem) : jsstring :=
  concat (map itemTranscript
            (List.filter (fun r => Bool.eqb (itemIsFinal r) final) window)).

End SpeechRecognition.

(** ** Highlighting slang in the transcript

    [highlightSlangInText] cuts a message at the matches of the pattern
    [\b(g'day|mate|...|smoko)\b], taken with the flags [g] and [i].  The
    pattern is built from the keys of [AUSSIE_SLANG] in the order they are
    written; none of them holds a character the escaping step would touch. *)

Module SessionTranscript.

Definition AUSSIE_SLANG : list (jsstring * jsstring) := [
  (str "g'day", str "Hello/Good day");
  (str "mate", str "Friend/Buddy");
  (str "no worries", str "No problem/You're welcome");
  (str "arvo", str "Afternoon");
  (str "brekkie", str "Breakfast");
  (str "cuppa", str "Cup of tea/coffee");
  (str "reckon", str "Think/Believe");
  (str "heaps", str "A lot/Many");
  (str "keen", str "Eager/Interested");
  (str "suss", str "Suspicious/To figure out");
  (str "stoked", str "Very happy/Excited");
  (str "legend", str "Great person");
  (str "ripper", str "Excellent/Great");
  (str "fair dinkum", str "Genuine/Really true");
  (str "chuck", str "Throw/Put");
  (str "yarn", str "Chat/Conversation");
  (str "bloody", str "Very (intensifier)");
  (str "crikey", str "Expression of surprise");
  (str "cheers", str "Thanks/Goodbye");
  (str "ta", str "Thank you");
  (str "servo", str "Service/Gas station");
  (str "bottle-o", str "Liquor store");
  (str "tradie", str "Tradesperson");
  (str "bogan", str "Unsophisticated person");
  (str "bloke", str "Man/Guy");
  (str "sheila", str "Woman");
  (str "chook", str "Chicken");
  (str "barbie", str "Barbecue");
  (str "snag", str "Sausage");
  (str "esky", str "Cooler/Ice box");
  (str "thongs", str "Flip-flops");
  (str "ute", str "Utility vehicle/Pickup truck");
  (str "bonnet", str "Car hood");
  (str "boot", str "Car trunk");
  (str "flat out", str "Very busy");
  (str "knock off", str "Finish work");
  (str "sickie", str "Sick day (often faked)");
  (str "smoko", str "Coffee/Smoke break")
].

(** [\w]: the word characters of a pattern without the [u] flag. *)
Definition isWordChar (c : N) : bool :=
  ((48 <=? c) && (c <=? 57) || (65 <=? c) && (c <=? 90) || (c =? 95)
   || (97 <=? c) && (c <=? 122))%N.

(** The canonical form under which the [i] flag compares two code units:
    the upper-case form.  A code unit outside Basic Latin never takes a
    Basic Latin form, and so never equals a character of this pattern; it
    is left as it is. *)
Definition canonicalize (c : N) : N :=
  if ((97 <=? c) && (c <=? 122))%N then (c - 32)%N else c.

(** [\b] between two neighbours, either of which may be missing at an end
    of the text. *)
Definition wordBoundary (before after : option N) : bool :=
  xorb (from_option isWordChar false before)
       (from_option isWordChar false after).

(** A literal of the pattern against the start of [text]: the matched code
    units and what follows them. *)
Fixpoint matchLiteral (literal text : jsstring) : option (jsstring * jsstring) :=
  match literal, text with
  | [], _ => Some ([], text)
  | _ :: _, [] => None
  | p :: literal', c :: text' =>
      if (canonicalize p =? canonicalize c)%N
      then match matchLiteral literal' text' with
           | Some (matched, rest) => Some (c :: matched, rest)
           | None => None
           end
      else None
  end.

(** The code unit just before a position, [consumed] being the text right
    up to it. *)
Definition unitBefore (prev : option N) (consumed : jsstring) : option N :=
  match last consumed with
  | Some c => Some c
  | None => prev
  end.

(** The alternatives in order: the first one that matches and is followed
    by a word boundary. *)
Fixpoint matchAlternatives (terms : list jsstring) (prev : option N)
    (text : jsstring) : option (jsstring * jsstring) :=
  match terms with
  | [] => None
  | term :: terms' =>
      match matchLiteral term text with
      | Some (matched, rest) =>
          if wordBoundary (unitBefore prev matched) (head rest)
          then Some (matched, rest)
          else matchAlternatives terms' prev text
      | None => matchAlternatives terms' prev text
      end
  end.

(** The whole pattern at one position; [prev] is the code unit before it. *)
Definition matchAt (prev : option N) (text : jsstring)
    : option (jsstring * jsstring) :=
  if wordBoundary prev (head text)
  then matchAlternatives (map fst AUSSIE_SLANG) prev text
  else None.

(** [regex.exec(text)] from [lastIndex] on: the first position where the
    pattern matches.  [text] is the text from [index] on; the answer is
    [match.index], [match[0]] and the text after the match. *)
Fixpoint exec (prev : option N) (index : nat) (text : jsstring)
    : option (nat * jsstring * jsstring) :=
  match matchAt prev text with
  | Some (matched, rest) => Some (index, matched, rest)
  | None =>
      match text with
      | [] => None
      | c :: text' => exec (Some c) (S index) text'
      end
  end.

(** [AUSSIE_SLANG[key]], [undefined] for a key that is not there. *)
Definition definitionOf (key : jsstring) : option jsstring :=
  snd <$> List.find (fun entry => if decide (fst entry = key) then true else false)
            AUSSIE_SLANG.

(** [a || b] on two look-ups: [undefined] and the empty string give way. *)
Definition orElse (a b : option jsstring) : option jsstring :=
  match a with
  | Some (_ :: _) => a
  | _ => b
  end.

(** [.replace("'", "'")]: the first apostrophe replaced by an apostrophe. *)
Definition replaceApostrophe (s : jsstring) : jsstring := s.

(** A piece of the message: plain text, or the [span] of a slang term with
    the index of its [key], its text and its [title]. *)
Inductive Part : Type :=
| Text (s : jsstring)
| Slang (index : nat) (matched : jsstring) (title : option jsstring).

Definition partText (p : Part) : jsstring :=
  match p with
  | Text s => s
  | Slang _ matched _ => matched
  end.

(** The [while] loop.  [rest] is the text from [lastIndex] on and [prev] the
    code unit before it.  Every match is at least one code unit long, so
    [fuel] larger than the length of [rest] is never used up. *)
Fixpoint highlightLoop (fuel : nat) (prev : option N) (lastIndex : nat)
    (rest : jsstring) (parts : list Part) : list Part :=
  match fuel with
  | 0 => parts
  | S fuel' =>
      match exec prev lastIndex rest with
      | None =>
          if (0 <? length rest)%nat then parts ++ [Text rest] else parts
      | Some (index, matched, rest') =>
          let parts1 :=
            if (lastIndex <? index)%nat
            then parts ++ [Text (take (index - lastIndex) rest)]
            else parts in
          let slangTerm := Js.toLowerCase matched in
          let definition :=
            orElse (definitionOf slangTerm)
                   (definitionOf (replaceApostrophe slangTerm)) in
          highlightLoop fuel'
            (unitBefore prev (take (index - lastIndex) rest ++ matched))
            (index + length matched) rest'
            (parts1 ++ [Slang index matched definition])
      end
  end.

Definition highlightSlangInText (text : jsstring) : list Part :=
  let parts := highlightLoop (S (length text)) None 0 text [] in
  match parts with
  | [] => [Text text]
  | _ :: _ => parts
  end.

(** The characters the escaping step of the pattern would put a backslash
    before. *)
Definition isRegexSpecial (c : N) : bool :=
  if decide (c ∈ str ".*+?^${}()|[]\\") then true else false.

(** A key of the table is written in small letters and in characters below
    [A]: digits, spaces, apostrophes and hyphens. *)
Definition isKeyUnit (c : N) : bool :=
  ((97 <=? c) && (c <=? 122) || (c <? 65))%N.

(** What a part of the result should look like: plain text is not empty; a
    highlight is a key of the table up to case and carries its meaning. *)
Definition partIsSound (p : Part) : Prop :=
  match p with
  | Text s => s <> []
  | Slang _ matched title =>
      exists key meaning,
        (key, meaning) ∈ AUSSIE_SLANG /\
        Js.toLowerCase matched = key /\ title = Some meaning
  end.

(** Every highlight carries the offset at which it starts, [offset] being
    the offset of the first part. *)
Fixpoint indexedFrom (offset : nat) (parts : list Part) : Prop :=
  match parts with
  | [] => True
  | p :: parts' =>
      match p with
      | Text _ => True
      | Slang index _ _ => index = offset
      end /\ indexedFrom (offset + length (partText p)) parts'
  end.

(** Every highlight stands between two word boundaries, [consumed] being
    the text before the first part. *)
Fixpoint boundedBy (consumed : jsstring) (parts : list Part) : Prop :=
  match parts with
  | [] => True
  | p :: parts' =>
      match p with
      | Text _ => True
      | Slang _ matched _ =>
          wordBoundary (last consumed) (head matched) = true /\
          wordBoundary (last matched)
            (head (concat (map partText parts'))) = true
      end /\ boundedBy (consumed ++ partText p) parts'
  end.

End SessionTranscript.

(** * Properties *)

(** ** The string model on examples *)

Example normalize_gday :
  normalizeString (str "  G'day,   MATE! ") = str "gday mate".
Proof. reflexivity. Qed.

Example normalize_line_breaks :
  normalizeString [72; 105; 9; 10; 8232; 33; 116; 104; 101; 114; 101]%N
  = str "hi there".
Proof. reflexivity. Qed.

Example normalize_kelvin_and_dotted_I :
  normalizeString [8490; 304; 215]%N = str "ki".
Proof. reflexivity. Qed.

Example white_space_class :
  map Js.isWhiteSpace [9; 13; 14; 32; 65; 160; 8202; 8203; 8232; 65279]%N
  = [true; true; false; true; false; true; true; false; true; true].
Proof. reflexivity. Qed.

Example includes_empty_needle : Js.includes (str "abc") [] = true.
Proof. reflexivity. Qed.

Example includes_inside : Js.includes (str "say gday mate") (str "gday") = true.
Proof. reflexivity. Qed.

Example includes_absent : Js.includes (str "gday") (str "gdy") = false.
Proof. reflexivity. Qed.

(** ** The output of normalizeString *)

Lemma space_is_white : Js.isWhiteSpace Js.space = true.
Proof. reflexivity. Qed.

Lemma not_white_not_space (c : N) : Js.isWhiteSpace c = false -> c <> Js.space.
Proof. intros Hc ->. rewrite space_is_white in Hc. discriminate. Qed.

Lemma stripOthers_kept (s : jsstring) :
  Forall (fun c => keptByClass c = true) (stripOthers s).
Proof.
  apply List.Forall_forall. intros c Hc.
  apply List.filter_In in Hc. tauto.
Qed.

Lemma collapseFrom_units (inRun : bool) (s : jsstring) :
  Forall (fun c => keptByClass c = true) s ->
  Forall isNormalUnit (collapseFrom inRun s).
Proof.
  intros Hs. revert inRun.
  induction Hs as [|c s Hc _ IH]; intros inRun; simpl; [constructor|].
  destruct (Js.isWhiteSpace c) eqn:Hw.
  - destruct inRun; [apply IH|].
    constructor; [|apply IH]. right; right; reflexivity.
  - constructor; [|apply IH].
    unfold keptByClass in Hc. unfold isNormalUnit. rewrite Hw in Hc.
    destruct (Js.isLowerAZ c); [left; reflexivity|].
    destruct (Js.isDigit c); [right; left; reflexivity|discriminate].
Qed.

Lemma collapseFrom_run_head (s : jsstring) :
  collapseFrom true s !! 0 <> Some Js.space.
Proof.
  induction s as [|c s IH]; simpl; [discriminate|].
  destruct (Js.isWhiteSpace c) eqn:Hw; [exact IH|].
  simpl. intros [= ->]. rewrite space_is_white in Hw. discriminate.
Qed.

Lemma collapseFrom_single_spaces (inRun : bool) (s : jsstring) (i : nat) :
  ~ (collapseFrom inRun s !! i = Some Js.space /\
     collapseFrom inRun s !! S i = Some Js.space).
Proof.
  revert inRun i. induction s as [|c s IH]; intros inRun i; simpl.
  - intros [H _]. discriminate.
  - destruct (Js.isWhiteSpace c) eqn:Hw.
    + destruct inRun; [apply IH|].
      destruct i as [|i]; simpl.
      * intros [_ H]. exact (collapseFrom_run_head s H).
      * apply IH.
    + destruct i as [|i]; simpl.
      * intros [[= ->] _]. rewrite space_is_white in Hw. discriminate.
      * apply IH.
Qed.

(** C10. Every code unit of the output of [normalizeString] is a lowercase
    ASCII letter, a decimal digit or a space, and no two spaces are adjacent
    in it, whatever white space the input had. *)
Theorem normalizeString_output (s : jsstring) :
  Forall isNormalUnit (normalizeString s) /\
  forall i : nat,
    ~ (normalizeString s !! i = Some Js.space /\
       normalizeString s !! S i = Some Js.space).
Proof.
  split.
  - apply collapseFrom_units, stripOthers_kept.
  - intros i. apply collapseFrom_single_spaces.
Qed.

(** *** A second pass only trims *)

Lemma normal_white_is_space (c : N) :
  isNormalUnit c -> Js.isWhiteSpace c = true -> c = Js.space.
Proof.
  unfold isNormalUnit, Js.isLowerAZ, Js.isDigit, Js.isWhiteSpace, Js.space.
  intros [Hc|[Hc|Hc]] Hw; [exfalso..|exact Hc];
    apply andb_true_iff in Hc as [Hlo Hhi];
    apply N.leb_le in Hlo; apply N.leb_le in Hhi;
    repeat (apply orb_true_iff in Hw as [Hw|Hw]);
    repeat match goal with
           | H : (_ && _)%bool = true |- _ => apply andb_true_iff in H as [? ?]
           | H : (_ <=? _)%N = true |- _ => apply N.leb_le in H
           | H : (_ =? _)%N = true |- _ => apply N.eqb_eq in H
           end; lia.
Qed.

Lemma normal_kept (c : N) : isNormalUnit c -> keptByClass c = true.
Proof.
  unfold keptByClass. intros [Hc|[Hc|Hc]].
  - rewrite Hc. reflexivity.
  - rewrite Hc. apply orb_true_iff. left. apply orb_true_r.
  - rewrite Hc. reflexivity.
Qed.

Lemma lowerUnit_normal (c : N) : isNormalUnit c -> Js.lowerUnit c = [c].
Proof.
  unfold isNormalUnit, Js.isLowerAZ, Js.isDigit, Js.space, Js.lowerUnit.
  intros Hc.
  assert (Hrange : (48 <= c <= 57 \/ 97 <= c <= 122 \/ c = 32)%N).
  { destruct Hc as [Hc|[Hc|Hc]]; [| |lia];
      apply andb_true_iff in Hc as [Hlo Hhi];
      apply N.leb_le in Hlo; apply N.leb_le in Hhi; lia. }
  destruct (N.leb_spec 65 c), (N.leb_spec c 90); simpl; try lia;
    destruct (N.eqb_spec c 304); try lia;
    destruct (N.eqb_spec c 8490); try lia; reflexivity.
Qed.

Lemma toLowerCase_normal (s : jsstring) :
  Forall isNormalUnit s -> Js.toLowerCase s = s.
Proof.
  induction 1 as [|c s Hc _ IH]; [reflexivity|].
  unfold Js.toLowerCase in *. simpl. rewrite IH, (lowerUnit_normal c Hc).
  reflexivity.
Qed.

Lemma stripOthers_normal (s : jsstring) :
  Forall isNormalUnit s -> stripOthers s = s.
Proof.
  induction 1 as [|c s Hc _ IH]; [reflexivity|].
  unfold stripOthers in *. simpl. rewrite (normal_kept c Hc), IH. reflexivity.
Qed.

Lemma collapseFrom_normal (inRun : bool) (s : jsstring) :
  Forall isNormalUnit s ->
  (forall i, ~ (s !! i = Some Js.space /\ s !! S i = Some Js.space)) ->
  (inRun = true -> s !! 0 <> Some Js.space) ->
  collapseFrom inRun s = s.
Proof.
  intros Hs. revert inRun.
  induction Hs as [|c s Hc _ IH]; intros inRun Hsingle Hhead; [reflexivity|].
  assert (Htail : forall i, ~ (s !! i = Some Js.space /\
                                s !! S i = Some Js.space))
    by (intros i; apply (Hsingle (S i))).
  simpl. destruct (Js.isWhiteSpace c) eqn:Hw.
  - pose proof (normal_white_is_space c Hc Hw) as ->.
    destruct inRun; [exfalso; apply Hhead; reflexivity|].
    rewrite IH; [reflexivity|exact Htail|].
    intros _ Hnext. apply (Hsingle 0). split; [reflexivity|exact Hnext].
  - rewrite IH; [reflexivity|exact Htail|discriminate].
Qed.

Lemma trimStart_suffix (s : jsstring) :
  exists before, s = before ++ Js.trimStart s.
Proof.
  induction s as [|c s [before IH]]; [exists []; reflexivity|].
  simpl. destruct (Js.isWhiteSpace c).
  - exists (c :: before). simpl. rewrite <- IH. reflexivity.
  - exists []. reflexivity.
Qed.

Lemma trim_segment (s : jsstring) :
  exists before after, s = before ++ Js.trim s ++ after.
Proof.
  destruct (trimStart_suffix s) as [before Hs].
  destruct (trimStart_suffix (rev (Js.trimStart s))) as [tail Ht].
  exists before, (rev tail). unfold Js.trim, Js.trimEnd.
  rewrite <- rev_app_distr, <- Ht, rev_involutive. exact Hs.
Qed.

Lemma segment_single_spaces (before t after : jsstring) :
  (forall i, ~ ((before ++ t ++ after) !! i = Some Js.space /\
                (before ++ t ++ after) !! S i = Some Js.space)) ->
  forall i, ~ (t !! i = Some Js.space /\ t !! S i = Some Js.space).
Proof.
  intros Hall i [H1 H2]. apply (Hall (length before + i)).
  replace (S (length before + i)) with (length before + S i) by lia.
  rewrite (lookup_app_r before (t ++ after) (length before + i)) by lia.
  rewrite (lookup_app_r before (t ++ after) (length before + S i)) by lia.
  replace (length before + i - length before) with i by lia.
  replace (length before + S i - length before) with (S i) by lia.
  split; apply lookup_app_l_Some; assumption.
Qed.

(** On a string that already has the shape of an output, [normalizeString]
    does nothing but trim. *)
Lemma normalizeString_normal (u : jsstring) :
  Forall isNormalUnit u ->
  (forall i, ~ (u !! i = Some Js.space /\ u !! S i = Some Js.space)) ->
  normalizeString u = Js.trim u.
Proof.
  intros Hunits Hsingle. unfold normalizeString.
  rewrite (toLowerCase_normal u Hunits).
  destruct (trim_segment u) as (before & after & Hu).
  assert (Htrim : Forall isNormalUnit (Js.trim u)).
  { rewrite Hu in Hunits.
    apply Forall_app in Hunits as [_ Hrest].
    apply Forall_app in Hrest as [Hmid _]. exact Hmid. }
  rewrite (stripOthers_normal _ Htrim). unfold collapseSpaces.
  apply collapseFrom_normal; [exact Htrim| |discriminate].
  apply (segment_single_spaces before (Js.trim u) after).
  rewrite <- Hu. exact Hsingle.
Qed.

(** The second pass of [normalizeString] trims the output of the first. *)
Lemma normalizeString_twice (s : jsstring) :
  normalizeString (normalizeString s) = Js.trim (normalizeString s).
Proof.
  apply normalizeString_normal.
  - apply collapseFrom_units, stripOthers_kept.
  - intros i. apply collapseFrom_single_spaces.
Qed.

(** A punctuation mark that stands apart at the end of the input is removed
    after the trimming, and the space before it stays. *)
Example normalize_detached_mark : normalizeString (str "a !") = str "a ".
Proof. reflexivity. Qed.

(** C2. [normalizeString] is not idempotent: on the input "a !" the first
    pass yields "a " and the second pass yields "a". *)
Theorem normalizeString_twice_differs :
  normalizeString (str "a !") = str "a " /\
  normalizeString (normalizeString (str "a !")) = str "a" /\
  normalizeString (normalizeString (str "a !")) <> normalizeString (str "a !").
Proof. repeat split. discriminate. Qed.

(** ** Edit distance *)

Section EditDistanceFacts.

Context {A : Type} `{EqDecision A}.

Implicit Types a b l : list A.

Lemma lev_nil_r a : lev a [] = length a.
Proof. destruct a; reflexivity. Qed.

Lemma lev_cons (x y : A) a b :
  lev (x :: a) (y :: b) =
  Nat.min (Nat.min (lev a (y :: b) + 1) (lev (x :: a) b + 1))
          (lev a b + (if decide (x = y) then 0 else 1)).
Proof. reflexivity. Qed.

Lemma lev_same l : lev l l = 0.
Proof.
  induction l as [|x l IH]; [reflexivity|].
  rewrite lev_cons, IH. destruct (decide (x = x)); [lia|congruence].
Qed.

Lemma lev_drop_left (x : A) a b : lev (x :: a) b <= S (lev a b).
Proof.
  destruct b as [|y b].
  - rewrite !lev_nil_r. simpl. lia.
  - rewrite lev_cons. lia.
Qed.

Lemma lev_drop_right (y : A) a b : lev a (y :: b) <= S (lev a b).
Proof.
  destruct a as [|x a].
  - simpl. lia.
  - rewrite lev_cons. lia.
Qed.

Lemma lev_add_left (x : A) a b : lev a b <= S (lev (x :: a) b).
Proof.
  induction b as [|y b IH].
  - rewrite !lev_nil_r. simpl. lia.
  - rewrite lev_cons. pose proof (lev_drop_right y a b).
    destruct (decide (x = y)); lia.
Qed.

Lemma lev_change_left (x y : A) l b : lev (x :: l) b <= S (lev (y :: l) b).
Proof.
  induction b as [|z b IH].
  - rewrite !lev_nil_r. simpl. lia.
  - rewrite !lev_cons.
    destruct (decide (x = z)), (decide (y = z)); lia.
Qed.

(** A single edit of the first string moves [lev] by at most one. *)
Lemma lev_edit1 a a' : edit1 a a' -> forall b, lev a b <= S (lev a' b).
Proof.
  induction 1 as [x l|x l|x y l|x l l' _ IH]; intros b.
  - apply lev_add_left.
  - apply lev_drop_left.
  - apply lev_change_left.
  - induction b as [|z b IHb].
    + rewrite !lev_nil_r. specialize (IH []). rewrite !lev_nil_r in IH.
      simpl. lia.
    + rewrite !lev_cons.
      pose proof (IH (z :: b)). pose proof (IH b).
      destruct (decide (x = z)); lia.
Qed.

Lemma lev_lower (n : nat) a b : edits n a b -> lev a b <= n.
Proof.
  induction 1 as [l|n l1 l2 l3 Hstep _ IH].
  - rewrite lev_same. lia.
  - pose proof (lev_edit1 _ _ Hstep l3). lia.
Qed.

Lemma edits_one a b : edit1 a b -> edits 1 a b.
Proof. intros Hab. eapply edits_more; [exact Hab|constructor]. Qed.

Lemma edits_trans (n m : nat) a b c :
  edits n a b -> edits m b c -> edits (n + m) a c.
Proof.
  induction 1 as [l|n l1 l2 l3 Hstep _ IH]; intros Hbc; simpl.
  - exact Hbc.
  - eapply edits_more; [exact Hstep|]. apply IH, Hbc.
Qed.

Lemma edits_cons (n : nat) (x : A) a b :
  edits n a b -> edits n (x :: a) (x :: b).
Proof.
  induction 1 as [l|n l1 l2 l3 Hstep _ IH]; [constructor|].
  eapply edits_more; [|exact IH]. constructor. exact Hstep.
Qed.

Lemma edits_insert_all b : edits (length b) [] b.
Proof.
  induction b as [|y b IH]; [constructor|]. simpl.
  eapply edits_more; [apply (edit_insert y [])|]. apply edits_cons, IH.
Qed.

Lemma edits_delete_all a : edits (length a) a [].
Proof.
  induction a as [|x a IH]; [constructor|]. simpl.
  eapply edits_more; [apply (edit_delete x a)|]. exact IH.
Qed.

(** [lev a b] edits do transform [a] into [b]. *)
Lemma lev_reached a b : edits (lev a b) a b.
Proof.
  revert b. induction a as [|x a IHa]; intros b.
  - apply edits_insert_all.
  - induction b as [|y b IHb].
    + rewrite lev_nil_r. apply edits_delete_all.
    + rewrite lev_cons.
      match goal with
      | |- edits (Nat.min (Nat.min ?p ?q) ?r) _ _ =>
          destruct (Nat.min_dec (Nat.min p q) r) as [-> | ->];
          [destruct (Nat.min_dec p q) as [-> | ->]|]
      end.
      * rewrite Nat.add_1_r.
        eapply edits_more; [apply edit_delete|]. apply IHa.
      * eapply edits_trans; [exact IHb|]. apply edits_one, edit_insert.
      * destruct (decide (x = y)) as [->|Hxy].
        -- rewrite Nat.add_0_r. apply edits_cons, IHa.
        -- rewrite Nat.add_1_r.
           eapply edits_more; [apply (edit_substitute x y)|].
           apply edits_cons, IHa.
Qed.

Lemma lev_is_editDistance a b : editDistance a b (lev a b).
Proof. split; [apply lev_reached|]. intros n. apply lev_lower. Qed.

Lemma editDistance_unique a b (d : nat) : editDistance a b d -> d = lev a b.
Proof.
  intros [Hd Hmin].
  pose proof (lev_lower _ _ _ Hd). pose proof (Hmin _ (lev_reached a b)). lia.
Qed.

Lemma edit1_sym a b : edit1 a b -> edit1 b a.
Proof. induction 1; constructor; assumption. Qed.

Lemma edits_sym (n : nat) a b : edits n a b -> edits n b a.
Proof.
  induction 1 as [l|n l1 l2 l3 Hstep _ IH]; [constructor|].
  replace (S n) with (n + 1) by lia.
  eapply edits_trans; [exact IH|]. apply edits_one, edit1_sym, Hstep.
Qed.

Lemma lev_sym a b : lev a b = lev b a.
Proof.
  pose proof (lev_lower _ _ _ (edits_sym _ _ _ (lev_reached a b))).
  pose proof (lev_lower _ _ _ (edits_sym _ _ _ (lev_reached b a))).
  lia.
Qed.

Lemma edit1_prefix (p : list A) a b : edit1 a b -> edit1 (p ++ a) (p ++ b).
Proof.
  intros Hab. induction p as [|x p IH]; [exact Hab|].
  simpl. constructor. exact IH.
Qed.

Lemma edit1_suffix (s : list A) a b : edit1 a b -> edit1 (a ++ s) (b ++ s).
Proof. induction 1; simpl; constructor; assumption. Qed.

Lemma edit1_rev a b : edit1 a b -> edit1 (rev a) (rev b).
Proof.
  induction 1 as [x l|x l|x y l|x l l' _ IH]; simpl.
  - rewrite <- (app_nil_r (rev l)) at 1. apply edit1_prefix, edit_insert.
  - rewrite <- (app_nil_r (rev l)) at 2. apply edit1_prefix, edit_delete.
  - apply edit1_prefix, edit_substitute.
  - apply edit1_suffix, IH.
Qed.

Lemma edits_rev (n : nat) a b : edits n a b -> edits n (rev a) (rev b).
Proof.
  induction 1 as [l|n l1 l2 l3 Hstep _ IH]; [constructor|].
  eapply edits_more; [apply edit1_rev, Hstep|exact IH].
Qed.

Lemma lev_rev a b : lev (rev a) (rev b) = lev a b.
Proof.
  pose proof (lev_lower _ _ _ (edits_rev _ _ _ (lev_reached a b))).
  pose proof (lev_lower _ _ _ (edits_rev _ _ _ (lev_reached (rev a) (rev b))))
    as Hback.
  rewrite !rev_involutive in Hback. lia.
Qed.

Lemma lev_le_longer a b : lev a b <= Nat.max (length a) (length b).
Proof.
  revert b. induction a as [|x a IH]; intros b; [simpl; lia|].
  destruct b as [|y b]; [rewrite lev_nil_r; lia|].
  rewrite lev_cons. specialize (IH b). simpl.
  destruct (decide (x = y)); lia.
Qed.

End EditDistanceFacts.

(** ** Loops and matrix cells *)

Lemma bind_Ok {A B : Type} (a : A) (k : A -> outcome B) : bind (Ok a) k = k a.
Proof. reflexivity. Qed.

Lemma forEach_seq {St : Type} (P : nat -> St -> Prop)
    (body : nat -> St -> outcome St) (n start : nat) (s : St) :
  P start s ->
  (forall (i : nat) (t : St),
     start <= i < start + n -> P i t -> exists t', body i t = Ok t' /\ P (S i) t') ->
  exists s', forEach (seq start n) body s = Ok s' /\ P (start + n) s'.
Proof.
  revert start s. induction n as [|n IH]; intros start s Hs Hbody; simpl.
  - exists s. rewrite Nat.add_0_r. split; [reflexivity|exact Hs].
  - destruct (Hbody start s) as (t & Ht & HP); [lia|exact Hs|].
    rewrite Ht. simpl.
    destruct (IH (S start) t HP) as (s' & Hs' & HP').
    + intros i u Hi. apply Hbody. lia.
    + exists s'. split; [exact Hs'|].
      replace (start + S n) with (S start + n) by lia. exact HP'.
Qed.

Lemma newMatrix_shaped (rows cols : nat) : shaped rows cols (newMatrix rows cols).
Proof.
  unfold shaped, newMatrix. split; [apply length_replicate|].
  intros i row Hrow. apply lookup_replicate in Hrow as [-> _].
  apply length_replicate.
Qed.

Lemma writeCell_spec (rows cols : nat) (m : matrix) (i j : nat) (v : Z) :
  shaped rows cols m -> i < rows -> j < cols ->
  exists m',
    writeCell m i j v = Ok m' /\ shaped rows cols m' /\
    readCell m' i j = Ok v /\
    forall i' j', (i' <> i \/ j' <> j) -> readCell m' i' j' = readCell m i' j'.
Proof.
  intros [Hrows Hcols] Hi Hj. unfold writeCell.
  destruct (lookup_lt_is_Some_2 m i) as [row Hrow]; [lia|].
  rewrite Hrow. pose proof (Hcols i row Hrow) as Hlen.
  destruct (decide (j < length row)) as [_|Hno]; [|lia].
  eexists. split; [reflexivity|]. split; [|split].
  - split; [rewrite length_insert; exact Hrows|].
    intros i' row' Hrow'.
    destruct (decide (i' = i)) as [->|Hne].
    + rewrite list_lookup_insert_eq in Hrow' by lia.
      injection Hrow' as <-. rewrite length_insert. exact Hlen.
    + rewrite list_lookup_insert_ne in Hrow' by congruence.
      apply (Hcols i' row' Hrow').
  - unfold readCell. rewrite list_lookup_insert_eq by lia.
    rewrite list_lookup_insert_eq by lia. reflexivity.
  - intros i' j' Hne. unfold readCell.
    destruct (decide (i' = i)) as [->|Hi'].
    + rewrite list_lookup_insert_eq by lia. rewrite Hrow.
      rewrite list_lookup_insert_ne by (destruct Hne; congruence).
      reflexivity.
    + rewrite list_lookup_insert_ne by congruence. reflexivity.
Qed.

(** ** The dynamic programme computes [lev] *)

Lemma levSimilarity_empty_r (a : jsstring) :
  levSimilarity a [] = if decide (a = []) then 100%Z else 0%Z.
Proof. destruct a; reflexivity. Qed.

Lemma levSimilarity_nonempty (a b : jsstring) :
  a <> [] -> b <> [] ->
  levSimilarity a b =
  percentage (Z.of_nat (lev a b))
    (Z.max (Z.of_nat (length a)) (Z.of_nat (length b))).
Proof. destruct a, b; intros Ha Hb; try congruence. reflexivity. Qed.

Section DynamicProgramme.

Variables str1 str2 : jsstring.

Local Abbreviation pd := (prefixDistance str1 str2).
Local Abbreviation rows := (length str1 + 1).
Local Abbreviation cols := (length str2 + 1).

Lemma prefixDistance_row0 (j : nat) : j <= length str2 -> pd 0 j = Z.of_nat j.
Proof.
  intros Hj. unfold prefixDistance. rewrite take_0. simpl.
  rewrite length_take. f_equal. lia.
Qed.

Lemma prefixDistance_col0 (i : nat) : i <= length str1 -> pd i 0 = Z.of_nat i.
Proof.
  intros Hi. unfold prefixDistance. rewrite take_0, lev_nil_r.
  rewrite length_take. f_equal. lia.
Qed.

Lemma prefixDistance_whole :
  pd (length str1) (length str2) = Z.of_nat (lev str1 str2).
Proof. unfold prefixDistance. rewrite !firstn_all. reflexivity. Qed.

Lemma lev_snoc (x y : N) (a b : jsstring) :
  lev (a ++ [x]) (b ++ [y]) =
  Nat.min (Nat.min (lev a (b ++ [y]) + 1) (lev (a ++ [x]) b + 1))
          (lev a b + (if decide (x = y) then 0 else 1)).
Proof.
  rewrite <- (lev_rev (a ++ [x]) (b ++ [y])), !rev_unit, lev_cons.
  rewrite <- (rev_unit b y), <- (rev_unit a x), !lev_rev. reflexivity.
Qed.

Lemma prefixDistance_step (i j : nat) :
  1 <= i <= length str1 -> 1 <= j <= length str2 ->
  pd i j =
  Z.min (Z.min (pd (i - 1) j + 1) (pd i (j - 1) + 1))
        (pd (i - 1) (j - 1) +
         (if decide (str1 !! (i - 1) = str2 !! (j - 1)) then 0 else 1)).
Proof.
  intros Hi Hj. destruct i as [|i]; [lia|]. destruct j as [|j]; [lia|].
  replace (S i - 1) with i by lia. replace (S j - 1) with j by lia.
  destruct (lookup_lt_is_Some_2 str1 i) as [x Hx]; [lia|].
  destruct (lookup_lt_is_Some_2 str2 j) as [y Hy]; [lia|].
  unfold prefixDistance.
  rewrite (take_S_r str1 i x Hx), (take_S_r str2 j y Hy), lev_snoc.
  rewrite <- (take_S_r str1 i x Hx), <- (take_S_r str2 j y Hy).
  rewrite Hx, Hy.
  destruct (decide (x = y)), (decide (Some x = Some y));
    try congruence; lia.
Qed.

(** First loop: [matrix[i][0] = i]. *)
Lemma fill_column0 (m : matrix) :
  shaped rows cols m ->
  exists m1,
    forEach (seq 0 rows) (fun i m => writeCell m i 0 (Z.of_nat i)) m = Ok m1 /\
    shaped rows cols m1 /\
    forall i, i <= length str1 -> readCell m1 i 0 = Ok (pd i 0).
Proof.
  intros Hm.
  destruct (forEach_seq
              (fun k m => shaped rows cols m /\
                          forall i, i < k -> readCell m i 0 = Ok (pd i 0))
              (fun i m => writeCell m i 0 (Z.of_nat i)) rows 0 m)
    as (m1 & Hrun & Hshape & Hcells).
  - split; [exact Hm|]. intros i Hi. lia.
  - intros k t Hk [Hshape Hcells].
    destruct (writeCell_spec rows cols t k 0 (Z.of_nat k) Hshape)
      as (t' & Hw & Hshape' & Hnew & Hold); [lia|lia|].
    exists t'. split; [exact Hw|]. split; [exact Hshape'|].
    intros i Hi. destruct (decide (i = k)) as [->|Hne].
    + rewrite Hnew, prefixDistance_col0 by lia. reflexivity.
    + rewrite Hold by (left; exact Hne). apply Hcells. lia.
  - exists m1. split; [exact Hrun|]. split; [exact Hshape|].
    intros i Hi. apply Hcells. lia.
Qed.

(** Second loop: [matrix[0][j] = j]. *)
Lemma fill_row0 (m : matrix) :
  shaped rows cols m ->
  (forall i, i <= length str1 -> readCell m i 0 = Ok (pd i 0)) ->
  exists m2,
    forEach (seq 0 cols) (fun j m => writeCell m 0 j (Z.of_nat j)) m = Ok m2 /\
    shaped rows cols m2 /\
    (forall i, i <= length str1 -> readCell m2 i 0 = Ok (pd i 0)) /\
    forall j, j <= length str2 -> readCell m2 0 j = Ok (pd 0 j).
Proof.
  intros Hm Hcol.
  destruct (forEach_seq
              (fun k m => shaped rows cols m /\
                          (forall i, i <= length str1 ->
                                     readCell m i 0 = Ok (pd i 0)) /\
                          forall j, j < k -> readCell m 0 j = Ok (pd 0 j))
              (fun j m => writeCell m 0 j (Z.of_nat j)) cols 0 m)
    as (m2 & Hrun & Hshape & Hcol2 & Hrow2).
  - split; [exact Hm|]. split; [exact Hcol|]. intros j Hj. lia.
  - intros k t Hk (Hshape & Hc & Hr).
    destruct (writeCell_spec rows cols t 0 k (Z.of_nat k) Hshape)
      as (t' & Hw & Hshape' & Hnew & Hold); [lia|lia|].
    exists t'. split; [exact Hw|]. split; [exact Hshape'|]. split.
    + intros i Hi. destruct (decide (i = 0 /\ k = 0)) as [[-> ->]|Hne].
      * rewrite Hnew, prefixDistance_col0 by lia. reflexivity.
      * rewrite Hold by lia. apply Hc, Hi.
    + intros j Hj. destruct (decide (j = k)) as [->|Hne].
      * rewrite Hnew, prefixDistance_row0 by lia. reflexivity.
      * rewrite Hold by (right; exact Hne). apply Hr. lia.
  - exists m2. split; [exact Hrun|]. split; [exact Hshape|].
    split; [exact Hcol2|]. intros j Hj. apply Hrow2. lia.
Qed.

(** Inner loop of the third nest: row [i], the rows above being filled. *)
Lemma fill_row (i : nat) (m : matrix) :
  1 <= i <= length str1 ->
  shaped rows cols m ->
  (forall i', i' <= length str1 -> readCell m i' 0 = Ok (pd i' 0)) ->
  (forall i' j, i' < i -> j <= length str2 -> readCell m i' j = Ok (pd i' j)) ->
  exists m',
    forEach (seq 1 (length str2))
      (fun j m =>
         let cost :=
           if decide (str1 !! (i - 1)%nat = str2 !! (j - 1)%nat)
           then 0%Z else 1%Z in
         let* up := readCell m (i - 1) j in
         let* left := readCell m i (j - 1) in
         let* diag := readCell m (i - 1) (j - 1) in
         writeCell m i j
           (Z.min (Z.min (up + 1) (left + 1)) (diag + cost)))
      m = Ok m' /\
    shaped rows cols m' /\
    (forall i', i' <= length str1 -> readCell m' i' 0 = Ok (pd i' 0)) /\
    (forall i' j, i' < S i -> j <= length str2 ->
                  readCell m' i' j = Ok (pd i' j)).
Proof.
  intros Hi Hm Hcol Habove.
  match goal with
  | |- exists m', forEach _ ?body _ = _ /\ _ =>
      destruct (forEach_seq
                  (fun k m =>
                     shaped rows cols m /\
                     (forall i', i' <= length str1 ->
                                 readCell m i' 0 = Ok (pd i' 0)) /\
                     (forall i' j, i' < i -> j <= length str2 ->
                                   readCell m i' j = Ok (pd i' j)) /\
                     (forall j, j < k -> readCell m i j = Ok (pd i j)))
                  body (length str2) 1 m)
        as (m' & Hrun & Hshape & Hcol' & Habove' & Hrow')
  end.
  - split; [exact Hm|]. split; [exact Hcol|]. split; [exact Habove|].
    intros j Hj. replace j with 0 by lia. apply Hcol. lia.
  - intros k t Hk (Hshape & Hc & Ha & Hr). cbv zeta.
    rewrite (Ha (i - 1) k) by lia. cbn [bind].
    rewrite (Hr (k - 1)) by lia. cbn [bind].
    rewrite (Ha (i - 1) (k - 1)) by lia. cbn [bind].
    rewrite <- (prefixDistance_step i k) by lia.
    destruct (writeCell_spec rows cols t i k (pd i k) Hshape)
      as (t' & Hw & Hshape' & Hnew & Hold); [lia|lia|].
    exists t'. split; [exact Hw|]. split; [exact Hshape'|].
    split; [|split].
    + intros i' Hi'. rewrite Hold by lia. apply Hc, Hi'.
    + intros i' j Hi' Hj. rewrite Hold by lia. apply Ha; assumption.
    + intros j Hj. destruct (decide (j = k)) as [->|Hne]; [exact Hnew|].
      rewrite Hold by (right; exact Hne). apply Hr. lia.
  - exists m'. split; [exact Hrun|]. split; [exact Hshape|].
    split; [exact Hcol'|]. intros i' j Hi' Hj.
    destruct (decide (i' = i)) as [->|Hne].
    + apply Hrow'. lia.
    + apply Habove'; lia.
Qed.

(** The third loop nest fills every row. *)
Lemma fill_rows (m : matrix) :
  shaped rows cols m ->
  (forall i, i <= length str1 -> readCell m i 0 = Ok (pd i 0)) ->
  (forall j, j <= length str2 -> readCell m 0 j = Ok (pd 0 j)) ->
  exists m',
    forEach (seq 1 (length str1))
      (fun i m =>
         forEach (seq 1 (length str2))
           (fun j m =>
              let cost :=
                if decide (str1 !! (i - 1)%nat = str2 !! (j - 1)%nat)
                then 0%Z else 1%Z in
              let* up := readCell m (i - 1) j in
              let* left := readCell m i (j - 1) in
              let* diag := readCell m (i - 1) (j - 1) in
              writeCell m i j
                (Z.min (Z.min (up + 1) (left + 1)) (diag + cost)))
           m)
      m = Ok m' /\
    readCell m' (length str1) (length str2) = Ok (Z.of_nat (lev str1 str2)).
Proof.
  intros Hm Hcol Hrow.
  match goal with
  | |- exists m', forEach _ ?body _ = _ /\ _ =>
      destruct (forEach_seq
                  (fun k m =>
                     shaped rows cols m /\
                     (forall i, i <= length str1 ->
                                readCell m i 0 = Ok (pd i 0)) /\
                     (forall i j, i < k -> j <= length str2 ->
                                  readCell m i j = Ok (pd i j)))
                  body (length str1) 1 m)
        as (m' & Hrun & _ & _ & Hall)
  end.
  - split; [exact Hm|]. split; [exact Hcol|].
    intros i j Hi Hj. replace i with 0 by lia. apply Hrow, Hj.
  - intros k t Hk (Hshape & Hc & Ha).
    destruct (fill_row k t) as (t' & Hrun & Hshape' & Hc' & Ha');
      [lia|exact Hshape|exact Hc|exact Ha|].
    exists t'. split; [exact Hrun|]. split; [exact Hshape'|].
    split; [exact Hc'|exact Ha'].
  - exists m'. split; [exact Hrun|].
    rewrite Hall by lia. rewrite prefixDistance_whole. reflexivity.
Qed.

(** [calculateSimilarity] never stops at a fault, and its matrix ends with
    [lev str1 str2] in the last cell. *)
Lemma calculateSimilarity_lev :
  calculateSimilarity str1 str2 = Ok (levSimilarity str1 str2).
Proof.
  unfold calculateSimilarity.
  destruct (Nat.eqb_spec (length str1) 0) as [Hnil1|Hlen1].
  { apply length_zero_iff_nil in Hnil1. rewrite Hnil1.
    destruct str2; reflexivity. }
  destruct (Nat.eqb_spec (length str2) 0) as [Hnil2|Hlen2].
  { apply length_zero_iff_nil in Hnil2. rewrite Hnil2.
    rewrite levSimilarity_empty_r. destruct (decide (str1 = [])) as [E|_].
    - rewrite E in Hlen1. contradiction.
    - reflexivity. }
  rewrite levSimilarity_nonempty by (intros E; rewrite E in *; contradiction).
  destruct (fill_column0 (newMatrix rows cols) (newMatrix_shaped rows cols))
    as (m1 & Hrun1 & Hshape1 & Hcol1).
  rewrite Hrun1, bind_Ok. cbv beta.
  destruct (fill_row0 m1 Hshape1 Hcol1)
    as (m2 & Hrun2 & Hshape2 & Hcol2 & Hrow2).
  rewrite Hrun2, bind_Ok. cbv beta.
  destruct (fill_rows m2 Hshape2 Hcol2 Hrow2) as (m3 & Hrun3 & Hlast).
  match goal with
  | |- bind ?run _ = _ =>
      replace run with (Ok m3) by (symmetry; exact Hrun3)
  end.
  rewrite bind_Ok. cbv beta. rewrite Hlast, bind_Ok. reflexivity.
Qed.

Lemma matrixDistance_lev :
  matrixDistance str1 str2 = Ok (Z.of_nat (lev str1 str2)).
Proof.
  unfold matrixDistance.
  destruct (fill_column0 (newMatrix rows cols) (newMatrix_shaped rows cols))
    as (m1 & Hrun1 & Hshape1 & Hcol1).
  rewrite Hrun1, bind_Ok. cbv beta.
  destruct (fill_row0 m1 Hshape1 Hcol1)
    as (m2 & Hrun2 & Hshape2 & Hcol2 & Hrow2).
  rewrite Hrun2, bind_Ok. cbv beta.
  destruct (fill_rows m2 Hshape2 Hcol2 Hrow2) as (m3 & Hrun3 & Hlast).
  match goal with
  | |- bind ?run _ = _ =>
      replace run with (Ok m3) by (symmetry; exact Hrun3)
  end.
  rewrite bind_Ok. exact Hlast.
Qed.

End DynamicProgramme.

(** ** The score stays between 0 and 100 *)

Lemma roundTiesToEven_le (q : Q) (T : Z) :
  (q <= inject_Z T)%Q -> (Js.roundTiesToEven q <= T)%Z.
Proof.
  intros Hq. unfold Js.roundTiesToEven.
  pose proof (Qfloor_le q) as Hlow.
  assert (Hf : (Qfloor q <= T)%Z).
  { rewrite Zle_Qle. lra. }
  assert (Hup : (0 < q - inject_Z (Qfloor q))%Q -> (Qfloor q + 1 <= T)%Z).
  { intros Hfrac. destruct (Z.eq_dec (Qfloor q) T) as [E|E]; [|lia].
    rewrite E in Hfrac. lra. }
  destruct (Qcompare_spec (q - inject_Z (Qfloor q)) (1 # 2)) as [E|E|E].
  - destruct (Z.even (Qfloor q)); [exact Hf|]. apply Hup. lra.
  - exact Hf.
  - apply Hup. lra.
Qed.

Lemma roundTiesToEven_nonneg (q : Q) :
  (0 <= q)%Q -> (0 <= Js.roundTiesToEven q)%Z.
Proof.
  intros Hq. unfold Js.roundTiesToEven.
  assert (Hf : (0 <= Qfloor q)%Z).
  { change 0%Z with (Qfloor 0). apply Qfloor_resp_le, Hq. }
  destruct (Qcompare _ _); [destruct (Z.even _)| |]; lia.
Qed.

Lemma roundTiesToEven_comp (q r : Q) :
  (q == r)%Q -> Js.roundTiesToEven q = Js.roundTiesToEven r.
Proof.
  intros E. unfold Js.roundTiesToEven.
  rewrite (Qfloor_comp _ _ E).
  assert (E' : (q - inject_Z (Qfloor r) == r - inject_Z (Qfloor r))%Q)
    by (rewrite E; reflexivity).
  rewrite (Qcompare_comp _ _ E' _ _ (Qeq_refl (1 # 2))). reflexivity.
Qed.

Lemma binaryExponent_le (q : Q) (M : Z) :
  (0 < q)%Q -> (q <= inject_Z M)%Q ->
  (Js.binaryExponent q <= Z.log2 M + 1)%Z.
Proof.
  intros Hpos Hle. unfold Js.binaryExponent.
  destruct q as [n d]. cbn [Qnum Qden].
  unfold Qlt in Hpos. unfold Qle in Hle. cbn in Hpos, Hle.
  assert (Hn : (0 < n)%Z) by lia.
  assert (HM : (0 < M)%Z) by nia.
  assert (Hlog : (Z.log2 n <= Z.log2 M + Z.log2 (Z.pos d) + 1)%Z).
  { etransitivity; [apply (Z.log2_le_mono n (M * Z.pos d)); lia|].
    apply Z.log2_mul_above; lia. }
  destruct (Qle_bool _ _); lia.
Qed.

Lemma two_power_nonpos (e : Z) :
  (e <= 0)%Z -> (2 ^ e == / inject_Z (2 ^ (- e)))%Q.
Proof.
  intros He. rewrite Zpower_Qpower by lia.
  rewrite <- Qpower_opp, Z.opp_involutive. reflexivity.
Qed.

Lemma binary64_bounds (q : Q) (M : Z) :
  (0 <= q)%Q -> (q <= inject_Z M)%Q -> (M < 2 ^ 51)%Z ->
  (0 <= Js.binary64 q)%Q /\ (Js.binary64 q <= inject_Z M)%Q.
Proof.
  intros Hq HM Hsmall. unfold Js.binary64.
  destruct (Qeq_bool q 0) eqn:Hzero.
  { split; [lra|]. lra. }
  apply Qeq_bool_neq in Hzero.
  assert (Hpos : (0 < q)%Q).
  { destruct (Qlt_le_dec 0 q) as [H|H]; [exact H|]. exfalso. apply Hzero. lra. }
  set (e := Z.max (Js.binaryExponent (Qabs q) - 52) (-1074)).
  assert (He : (e <= 0)%Z).
  { assert (Hexp : (Js.binaryExponent (Qabs q) <= Z.log2 M + 1)%Z).
    { apply binaryExponent_le.
      - rewrite Qabs_pos by lra. exact Hpos.
      - rewrite Qabs_pos by lra. exact HM. }
    assert (Z.log2 M < 51)%Z.
    { destruct (Z.le_gt_cases M 0) as [H0|H0].
      - rewrite Z.log2_nonpos by lia. lia.
      - apply Z.log2_lt_pow2; lia. }
    lia. }
  set (w := inject_Z (2 ^ (- e))).
  assert (Hw : (0 < w)%Q).
  { unfold w. rewrite <- (Zlt_Qlt 0). apply Z.pow_pos_nonneg; lia. }
  assert (Hpow : (2 ^ e == / w)%Q) by (apply two_power_nonpos, He).
  assert (Harg : (q / 2 ^ e == q * w)%Q).
  { rewrite Hpow. field. lra. }
  rewrite Qred_correct, (roundTiesToEven_comp _ _ Harg), Hpow.
  pose proof (roundTiesToEven_nonneg (q * w)) as Hlow.
  pose proof (roundTiesToEven_le (q * w) (M * 2 ^ (- e))) as Hhigh.
  set (R := Js.roundTiesToEven (q * w)) in *.
  assert (0 <= R)%Z as HR0.
  { apply Hlow. apply Qmult_le_0_compat; lra. }
  assert (R <= M * 2 ^ (- e))%Z as HR1.
  { apply Hhigh. rewrite inject_Z_mult. fold w.
    apply Qmult_le_compat_r; [exact HM|apply Qlt_le_weak, Hw]. }
  rewrite Zle_Qle in HR0, HR1. rewrite inject_Z_mult in HR1. fold w in HR1.
  assert (Hinv : (0 < / w)%Q) by (apply Qinv_lt_0_compat, Hw).
  split.
  - apply Qmult_le_0_compat; [exact HR0|apply Qlt_le_weak, Hinv].
  - apply Qle_shift_div_r; [exact Hw|exact HR1].
Qed.

Lemma round_bounds (x : Q) (M : Z) :
  (0 <= x)%Q -> (x <= inject_Z M)%Q -> (0 <= Js.round x <= M)%Z.
Proof.
  intros Hlow Hhigh. unfold Js.round. split.
  - change 0%Z with (Qfloor (1 # 2)). apply Qfloor_resp_le. lra.
  - pose proof (Qfloor_le (x + (1 # 2))) as Hf.
    destruct (Z.le_gt_cases (Qfloor (x + (1 # 2))) M) as [H|H]; [exact H|].
    exfalso. assert (Hge : (M + 1 <= Qfloor (x + (1 # 2)))%Z) by lia.
    rewrite Zle_Qle, inject_Z_plus in Hge.
    change (inject_Z 1) with 1%Q in Hge. lra.
Qed.

Lemma quotient_bounds (d L : Z) :
  (0 <= d <= L)%Z -> (1 <= L)%Z ->
  (0 <= inject_Z d / inject_Z L)%Q /\ (inject_Z d / inject_Z L <= inject_Z 1)%Q.
Proof.
  intros [Hd HdL] HL.
  assert (HLq : (0 < inject_Z L)%Q) by (rewrite <- (Zlt_Qlt 0); lia).
  assert (Hdq : (0 <= inject_Z d)%Q) by (rewrite <- (Zle_Qle 0); lia).
  assert (HdLq : (inject_Z d <= inject_Z L)%Q) by (rewrite <- Zle_Qle; lia).
  split.
  - apply Qle_shift_div_l; [exact HLq|]. lra.
  - apply Qle_shift_div_r; [exact HLq|].
    change (inject_Z 1) with 1%Q. lra.
Qed.

(** [Math.round((1 - distance / maxLen) * 100)] lies between 0 and 100 when
    the distance does not exceed the length. *)
Lemma percentage_bounds (d L : Z) :
  (0 <= d <= L)%Z -> (1 <= L)%Z -> (0 <= percentage d L <= 100)%Z.
Proof.
  intros Hd HL. unfold percentage, Js.mul, Js.sub, Js.div.
  destruct (quotient_bounds d L Hd HL) as [Hq0 Hq1].
  destruct (binary64_bounds _ 1 Hq0 Hq1) as [Hx0 Hx1]; [reflexivity|].
  set (x := Js.binary64 (inject_Z d / inject_Z L)) in *.
  change (inject_Z 1) with 1%Q in Hx1.
  destruct (binary64_bounds (1 - x) 1) as [Hy0 Hy1];
    [lra|change (inject_Z 1) with 1%Q; lra|reflexivity|].
  set (y := Js.binary64 (1 - x)) in *.
  change (inject_Z 1) with 1%Q in Hy1.
  destruct (binary64_bounds (y * 100) 100) as [Hz0 Hz1];
    [lra|change (inject_Z 100) with 100%Q; lra|reflexivity|].
  apply round_bounds; assumption.
Qed.

(** ** calculateSimilarity against the specification *)

Lemma levSimilarity_is (a b : jsstring) : similarityIs a b (levSimilarity a b).
Proof.
  unfold similarityIs. destruct a as [|x a], b as [|y b]; simpl.
  - left. auto.
  - right; left. split; [left; split; congruence|reflexivity].
  - right; left. split; [right; split; congruence|reflexivity].
  - right; right. split; [congruence|]. split; [congruence|].
    exists (lev (x :: a) (y :: b)). split; [apply lev_is_editDistance|].
    reflexivity.
Qed.

Lemma similarityIs_unique (a b : jsstring) (r : Z) :
  similarityIs a b r -> r = levSimilarity a b.
Proof.
  intros [(-> & -> & ->)|[[Hone ->]|(Ha & Hb & d & Hd & ->)]].
  - reflexivity.
  - destruct Hone as [[-> Hb]|[Ha ->]].
    + destruct b; [congruence|reflexivity].
    + destruct a; [congruence|reflexivity].
  - rewrite (editDistance_unique _ _ _ Hd).
    symmetry. apply levSimilarity_nonempty; assumption.
Qed.

Lemma levSimilarity_bounds (a b : jsstring) :
  (0 <= levSimilarity a b <= 100)%Z.
Proof.
  destruct a as [|x a], b as [|y b]; simpl; try lia.
  apply percentage_bounds.
  - pose proof (lev_le_longer (x :: a) (y :: b)). simpl in *. lia.
  - lia.
Qed.

Lemma levSimilarity_sym (a b : jsstring) : levSimilarity a b = levSimilarity b a.
Proof.
  destruct a as [|x a], b as [|y b]; try reflexivity.
  unfold levSimilarity. rewrite (lev_sym (x :: a) (y :: b)), Z.max_comm.
  reflexivity.
Qed.

(** What [calculateSimilarity] computes: 100 for two empty strings, 0 when
    exactly one is empty, and otherwise [Math.round((1 - d / L) * 100)] in
    binary64 arithmetic, where [d] is the insert/delete/substitute edit
    distance and [L] the longer length; the result is an integer between 0
    and 100. *)
Lemma calculateSimilarity_spec (a b : jsstring) :
  exists r : Z,
    calculateSimilarity a b = Ok r /\ similarityIs a b r /\ (0 <= r <= 100)%Z.
Proof.
  exists (levSimilarity a b). split; [apply calculateSimilarity_lev|].
  split; [apply levSimilarity_is|apply levSimilarity_bounds].
Qed.

(** C4. [calculateSimilarity] is symmetric in its two arguments. *)
Theorem calculateSimilarity_symmetric (a b : jsstring) :
  calculateSimilarity a b = calculateSimilarity b a.
Proof.
  rewrite !calculateSimilarity_lev, levSimilarity_sym. reflexivity.
Qed.

(** ** includes and the loop over the alternatives *)

Lemma startsWith_spec (t s : jsstring) :
  Js.startsWith t s = true <-> exists rest, s = t ++ rest.
Proof.
  revert s. induction t as [|x t IH]; intros s; simpl.
  - split; [intros _; exists s; reflexivity|reflexivity].
  - destruct s as [|y s].
    + split; [discriminate|]. intros [rest Hrest]. discriminate.
    + destruct (decide (x = y)) as [->|Hxy].
      * rewrite IH. split; intros [rest Hrest]; exists rest; congruence.
      * split; [discriminate|]. intros [rest Hrest]. congruence.
Qed.

Lemma includes_spec (s t : jsstring) :
  Js.includes s t = true <-> isSubstring t s.
Proof.
  unfold isSubstring. induction s as [|c s IH]; simpl.
  - rewrite orb_false_r, startsWith_spec. split.
    + intros [rest Hrest]. exists [], rest. exact Hrest.
    + intros (before & after & Hs).
      destruct before; [|discriminate]. exists after. exact Hs.
  - rewrite orb_true_iff, startsWith_spec, IH. split.
    + intros [[rest Hrest]|(before & after & Hs)].
      * exists [], rest. exact Hrest.
      * exists (c :: before), after. rewrite Hs. reflexivity.
    + intros (before & after & Hs). destruct before as [|c' before].
      * left. exists after. exact Hs.
      * right. exists before, after. simpl in Hs. congruence.
Qed.

Lemma includes_false (s t : jsstring) :
  Js.includes s t = false <-> ~ isSubstring t s.
Proof.
  rewrite <- includes_spec. destruct (Js.includes s t); split; congruence.
Qed.

Lemma checkAlternatives_found (nt spoken : jsstring) (alts : list jsstring) :
  (exists alt, alt ∈ alts /\ normalizeString alt = nt) ->
  checkAlternatives nt spoken alts = Some (mkResult 95 excellent spoken).
Proof.
  intros (alt & Hin & Halt). induction alts as [|a alts IH]; simpl.
  - apply elem_of_nil in Hin. contradiction.
  - destruct (decide (normalizeString a = nt)) as [_|Hne]; [reflexivity|].
    apply IH. apply elem_of_cons in Hin as [->|Hin]; [contradiction|exact Hin].
Qed.

Lemma checkAlternatives_none (nt spoken : jsstring) (alts : list jsstring) :
  ~ (exists alt, alt ∈ alts /\ normalizeString alt = nt) ->
  checkAlternatives nt spoken alts = None.
Proof.
  intros Hno. induction alts as [|a alts IH]; simpl; [reflexivity|].
  destruct (decide (normalizeString a = nt)) as [Heq|Hne].
  - exfalso. apply Hno. exists a. split; [apply list_elem_of_here|exact Heq].
  - apply IH. intros (alt & Hin & Halt). apply Hno.
    exists alt. split; [apply list_elem_of_further, Hin|exact Halt].
Qed.

Lemma alternative_dec (nt : jsstring) (alts : list jsstring) :
  (exists alt, alt ∈ alts /\ normalizeString alt = nt) \/
  ~ (exists alt, alt ∈ alts /\ normalizeString alt = nt).
Proof.
  induction alts as [|a alts [IH|IH]].
  - right. intros (alt & Hin & _). apply elem_of_nil in Hin. contradiction.
  - left. destruct IH as (alt & Hin & Halt).
    exists alt. split; [apply list_elem_of_further, Hin|exact Halt].
  - destruct (decide (normalizeString a = nt)) as [Heq|Hne].
    + left. exists a. split; [apply list_elem_of_here|exact Heq].
    + right. intros (alt & Hin & Halt).
      apply elem_of_cons in Hin as [->|Hin]; [contradiction|].
      apply IH. exists alt. split; assumption.
Qed.

(** ** calculateMatch against the rule set *)

Lemma tierOf_total (similarity : Z) :
  tierOf similarity
    (if (80 <=? similarity)%Z then good
     else if (60 <=? similarity)%Z then close
     else if (40 <=? similarity)%Z then tryagain
     else different).
Proof.
  destruct (Z.leb_spec 80 similarity); [constructor; lia|].
  destruct (Z.leb_spec 60 similarity); [constructor; lia|].
  destruct (Z.leb_spec 40 similarity); constructor; lia.
Qed.

Lemma tierOf_unique (similarity : Z) (t1 t2 : Feedback) :
  tierOf similarity t1 -> tierOf similarity t2 -> t1 = t2.
Proof. destruct 1; destruct 1; auto; lia. Qed.

(** The run of [calculateMatch] ends with a result, and the rule set gives
    that result. *)
Lemma calculateMatch_classified (target spoken : jsstring)
    (alternatives : list jsstring) :
  exists s tier,
    calculateMatch target spoken alternatives = Ok (mkResult s tier spoken) /\
    classify target spoken alternatives s tier.
Proof.
  unfold calculateMatch.
  destruct (decide (normalizeString target = normalizeString spoken))
    as [Hsame|Hdiff].
  { exists 100%Z, perfect. split; [reflexivity|]. constructor. congruence. }
  assert (Hdiff' : normalizeString spoken <> normalizeString target)
    by congruence.
  destruct (alternative_dec (normalizeString target) alternatives)
    as [Halt|Halt].
  { rewrite (checkAlternatives_found _ spoken _ Halt).
    exists 95%Z, excellent. split; [reflexivity|].
    apply rule_alternative; assumption. }
  rewrite (checkAlternatives_none _ spoken _ Halt).
  rewrite calculateSimilarity_lev, bind_Ok.
  pose proof (levSimilarity_is (normalizeString target) (normalizeString spoken))
    as Hsim.
  set (similarity := levSimilarity _ _) in *.
  destruct (Js.includes (normalizeString spoken) (normalizeString target))
    eqn:Hin.
  { exists (Z.max similarity 85), good. split; [reflexivity|].
    apply rule_contains; try assumption. apply includes_spec, Hin. }
  apply includes_false in Hin.
  destruct (Js.includes (normalizeString target) (normalizeString spoken)
            && (2 <? length (normalizeString spoken))) eqn:Hpart.
  { apply andb_true_iff in Hpart as [Hsub Hlen].
    exists (Z.max similarity 70), partial. split; [reflexivity|].
    apply rule_contained; try assumption.
    - apply includes_spec, Hsub.
    - apply Nat.ltb_lt, Hlen. }
  assert (Hnot : ~ (isSubstring (normalizeString spoken) (normalizeString target)
                    /\ 2 < length (normalizeString spoken))).
  { intros [Hsub Hlen]. apply includes_spec in Hsub. apply Nat.ltb_lt in Hlen.
    rewrite Hsub, Hlen in Hpart. discriminate. }
  exists similarity,
    (if (80 <=? similarity)%Z then good
     else if (60 <=? similarity)%Z then close
     else if (40 <=? similarity)%Z then tryagain
     else different).
  split.
  - destruct (80 <=? similarity)%Z; [reflexivity|].
    destruct (60 <=? similarity)%Z; [reflexivity|].
    destruct (40 <=? similarity)%Z; reflexivity.
  - apply rule_threshold; try assumption. apply tierOf_total.
Qed.

(** The rule set gives at most one result. *)
Lemma classify_unique (target spoken : jsstring) (alternatives : list jsstring)
    (s1 s2 : Z) (t1 t2 : Feedback) :
  classify target spoken alternatives s1 t1 ->
  classify target spoken alternatives s2 t2 ->
  s1 = s2 /\ t1 = t2.
Proof.
  intros H1 H2.
  destruct H1 as [?|? ?|sim1 ? ? Hsim1 ?|sim1 ? ? Hsim1 ? ? ?
                  |sim1 tier1 ? ? Hsim1 ? Hn1 Ht1];
    destruct H2 as [?|? ?|sim2 ? ? Hsim2 ?|sim2 ? ? Hsim2 ? ? ?
                    |sim2 tier2 ? ? Hsim2 ? Hn2 Ht2];
    try contradiction; try tauto;
    try (apply similarityIs_unique in Hsim1;
         apply similarityIs_unique in Hsim2; subst sim1 sim2).
  - split; reflexivity.
  - split; reflexivity.
  - split; [reflexivity|]. eapply tierOf_unique; eassumption.
Qed.

Lemma similarityIs_bounds (a b : jsstring) (r : Z) :
  similarityIs a b r -> (0 <= r <= 100)%Z.
Proof.
  intros Hr. rewrite (similarityIs_unique _ _ _ Hr). apply levSimilarity_bounds.
Qed.

Lemma classify_scoreFits (target spoken : jsstring)
    (alternatives : list jsstring) (s : Z) (tier : Feedback) :
  classify target spoken alternatives s tier -> scoreFits tier s.
Proof.
  intros [?|? ?|sim ? ? Hsim ?|sim ? ? Hsim ? ? ?|sim tier' ? ? Hsim ? ? Htier];
    simpl; try lia.
  apply similarityIs_bounds in Hsim. destruct Htier; simpl; lia.
Qed.

(** C1. [calculateMatch] returns exactly the result of the ordered rule set:
    the exact match first (100, perfect), then a matching alternative (95,
    excellent), then, with the similarity of the two normalized strings, the
    spoken text containing the target (max(similarity, 85), good), the target
    containing a spoken text longer than 2 (max(similarity, 70), partial),
    and last the thresholds 80, 60 and 40 on the similarity. *)
Theorem calculateMatch_follows_rules (target spoken : jsstring)
    (alternatives : list jsstring) (s : Z) (tier : Feedback) :
  classify target spoken alternatives s tier <->
  calculateMatch target spoken alternatives = Ok (mkResult s tier spoken).
Proof.
  destruct (calculateMatch_classified target spoken alternatives)
    as (s0 & tier0 & Hrun & Hrule).
  split.
  - intros Hc. destruct (classify_unique _ _ _ _ _ _ _ Hc Hrule) as [-> ->].
    exact Hrun.
  - intros Hrun'. rewrite Hrun in Hrun'. injection Hrun' as <- <-. exact Hrule.
Qed.

(** C5. [calculateMatch] ends with a result on every input, the empty
    strings included: no run stops at a fault, and the rule set assigns the
    input exactly one tier. *)
Theorem calculateMatch_total (target spoken : jsstring)
    (alternatives : list jsstring) :
  (exists r, calculateMatch target spoken alternatives = Ok r) /\
  (forall f, calculateMatch target spoken alternatives <> Throw f) /\
  exists tier,
    (exists s, classify target spoken alternatives s tier) /\
    forall s' tier', classify target spoken alternatives s' tier' -> tier' = tier.
Proof.
  destruct (calculateMatch_classified target spoken alternatives)
    as (s & tier & Hrun & Hrule).
  split; [eexists; exact Hrun|]. split.
  - intros f Hf. rewrite Hrun in Hf. discriminate.
  - exists tier. split; [exists s; exact Hrule|].
    intros s' tier' Hc. apply (classify_unique _ _ _ _ _ _ _ Hc Hrule).
Qed.

(** C9. The score [calculateMatch] returns fits the tier it returns: 100
    for perfect, 95 for excellent, at least 80 for good, at least 70 for
    partial, 60 to 79 for close, 40 to 59 for tryagain and 0 to 39 for
    different. *)
Theorem calculateMatch_score_fits_tier (target spoken : jsstring)
    (alternatives : list jsstring) :
  exists r,
    calculateMatch target spoken alternatives = Ok r /\
    scoreFits (feedback r) (score r).
Proof.
  destruct (calculateMatch_classified target spoken alternatives)
    as (s & tier & Hrun & Hrule).
  eexists. split; [exact Hrun|]. simpl.
  apply (classify_scoreFits _ _ _ _ _ Hrule).
Qed.

(** C6. For the target "good morning" and the spoken text "good afternoon",
    with no alternatives, the edit distance is 7 over a length of 14, the
    similarity is 50, well below 80, and the result carries that score with
    the tier tryagain. *)
Theorem good_morning_good_afternoon :
  exists r similarity,
    calculateMatch (str "good morning") (str "good afternoon") [] = Ok r /\
    calculateSimilarity (normalizeString (str "good morning"))
      (normalizeString (str "good afternoon")) = Ok similarity /\
    editDistance (normalizeString (str "good morning"))
      (normalizeString (str "good afternoon")) 7 /\
    similarity = 50%Z /\ (similarity < 80)%Z /\
    score r = similarity /\
    feedback r = tryagain /\
    (feedback r = tryagain \/ feedback r = different).
Proof.
  exists (mkResult 50 tryagain (str "good afternoon")), 50%Z.
  split; [vm_compute; reflexivity|]. split; [vm_compute; reflexivity|].
  split.
  - assert (Hcell : matrixDistance (normalizeString (str "good morning"))
                      (normalizeString (str "good afternoon")) = Ok 7%Z)
      by (vm_compute; reflexivity).
    rewrite matrixDistance_lev in Hcell.
    assert (Hlev : lev (normalizeString (str "good morning"))
                     (normalizeString (str "good afternoon")) = 7)
      by (apply Nat2Z.inj; change (Z.of_nat 7) with 7%Z; congruence).
    rewrite <- Hlev. apply lev_is_editDistance.
  - repeat split; try reflexivity. left. reflexivity.
Qed.

(** *** calculateMatch on examples *)

Example match_exact :
  calculateMatch (str "G'day") (str "gday") []
  = Ok (mkResult 100 perfect (str "gday")).
Proof. vm_compute. reflexivity. Qed.

Example match_alternative :
  calculateMatch (str "hello") (str "help") [str "hollow"; str "Hello!"]
  = Ok (mkResult 95 excellent (str "help")).
Proof. vm_compute. reflexivity. Qed.

Example match_contains :
  calculateMatch (str "hello") (str "oh hello there") []
  = Ok (mkResult 85 good (str "oh hello there")).
Proof. vm_compute. reflexivity. Qed.

Example match_contained :
  calculateMatch (str "gday mate") (str "gday") []
  = Ok (mkResult 70 partial (str "gday")).
Proof. vm_compute. reflexivity. Qed.

Example match_contained_too_short :
  calculateMatch (str "arvo") (str "ar") []
  = Ok (mkResult 50 tryagain (str "ar")).
Proof. vm_compute. reflexivity. Qed.

Example match_thresholds :
  calculateMatch (str "hello") (str "hallo") []
  = Ok (mkResult 80 good (str "hallo")) /\
  calculateMatch (str "no worries") (str "no worry") []
  = Ok (mkResult 70 close (str "no worry")) /\
  calculateMatch (str "brekkie") (str "xyz") []
  = Ok (mkResult 0 different (str "xyz")).
Proof. vm_compute. repeat split. Qed.

(** The space a detached punctuation mark leaves behind costs the exact
    match: the spoken text normalizes to "hello " and only contains the
    target. *)
Example match_detached_mark :
  calculateMatch (str "hello") (str "hello !") []
  = Ok (mkResult 85 good (str "hello !")).
Proof. vm_compute. reflexivity. Qed.

(** ** The arithmetic model against the Standard Library's binary64 *)

(** For every distance and length up to 64 the quotient of the model is the
    one the IEEE 754 operations of [SpecFloat] give. *)
Lemma binary64_agrees : Binary64.agreesUpTo 64 = true.
Proof. vm_compute. reflexivity. Qed.

(** Up to length 39 the binary64 quotient rounds to the same integer as the
    exact quotient. *)
Lemma percentage_exact_below_40 : Binary64.exactUpTo 39 = true.
Proof. vm_compute. reflexivity. Qed.

(** The rounding of the operations shows at length 40: the exact value of
    [(1 - 17/40) * 100] is 57.5, the binary64 value lies just below it. *)
Example percentage_just_below_half :
  percentage 17 40 = 57%Z /\
  Js.round ((1 - 17 / 40) * 100) = 58%Z /\
  Binary64.agreesAt 17 40 = true.
Proof. vm_compute. repeat split. Qed.

(** Up to length 39 the program meets the formula of the specification. *)
Lemma percentage_exact (d L : nat) :
  1 <= L <= 39 -> d <= L ->
  percentage (Z.of_nat d) (Z.of_nat L)
  = exactPercentage (Z.of_nat d) (Z.of_nat L).
Proof.
  intros HL Hd. pose proof percentage_exact_below_40 as Hall.
  unfold Binary64.exactUpTo in Hall. rewrite List.forallb_forall in Hall.
  assert (HinL : List.In L (seq 1 39)) by (apply List.in_seq; lia).
  pose proof (Hall L HinL) as Hrow. rewrite List.forallb_forall in Hrow.
  assert (Hind : List.In d (seq 0 (S L))) by (apply List.in_seq; lia).
  pose proof (Hrow d Hind) as Hcell. unfold Binary64.exactAt in Hcell.
  apply Z.eqb_eq in Hcell. exact Hcell.
Qed.

Lemma calculateSimilarity_exact_below_40 (a b : jsstring) :
  length a <= 39 -> length b <= 39 ->
  exists r : Z,
    calculateSimilarity a b = Ok r /\ specSimilarity a b r /\ (0 <= r <= 100)%Z.
Proof.
  intros Ha Hb. exists (levSimilarity a b).
  split; [apply calculateSimilarity_lev|].
  split; [|apply levSimilarity_bounds].
  destruct (levSimilarity_is a b)
    as [Hboth|[Hone|(Hna & Hnb & d & Hd & Hr)]].
  - left. exact Hboth.
  - right; left. exact Hone.
  - right; right. split; [exact Hna|]. split; [exact Hnb|].
    exists d. split; [exact Hd|]. rewrite Hr.
    pose proof (editDistance_unique _ _ _ Hd) as Hlev.
    pose proof (lev_le_longer a b) as Hlong.
    rewrite <- Nat2Z.inj_max.
    apply percentage_exact.
    + destruct a; [congruence|]. simpl in *. lia.
    + lia.
Qed.

(** C3. The formula of the claim, [round((1 - d / L) * 100)], is not what
    [calculateSimilarity] returns at length 40.  For forty letters [a]
    against seventeen letters [b] followed by twenty-three letters [a] the
    edit distance is 17 and the longer length 40; the exact value of
    [(1 - 17/40) * 100] is 57.5, which rounds to 58, with a tie going up as
    with a tie going to the even neighbour.  The program returns 57: its
    binary64 product lies below 57.5 by 2^-47. *)
Theorem calculateSimilarity_misses_formula :
  let a := str "aaaaaaaaaaaaaaaaaaaaaaaaaaaaaaaaaaaaaaaa" in
  let b := str "bbbbbbbbbbbbbbbbbaaaaaaaaaaaaaaaaaaaaaaa" in
  calculateSimilarity a b = Ok 57%Z /\
  editDistance a b 17 /\
  Z.max (Z.of_nat (length a)) (Z.of_nat (length b)) = 40%Z /\
  ((1 - 17 / 40) * 100 == 115 # 2)%Q /\
  exactPercentage 17 40 = 58%Z /\
  Js.roundTiesToEven ((1 - 17 / 40) * 100) = 58%Z /\
  (Js.mul (Js.sub 1 (Js.div 17 40)) 100 == (115 # 2) - (1 # 2 ^ 47))%Q /\
  Binary64.agreesAt 17 40 = true /\
  specSimilarity a b 58 /\
  ~ specSimilarity a b 57.
Proof.
  intros a b.
  assert (Hrun : calculateSimilarity a b = Ok 57%Z) by (vm_compute; reflexivity).
  assert (Hcell : matrixDistance a b = Ok 17%Z) by (vm_compute; reflexivity).
  assert (Hmax : Z.max (Z.of_nat (length a)) (Z.of_nat (length b)) = 40%Z)
    by (vm_compute; reflexivity).
  assert (Hna : a <> []) by (intros H; discriminate H).
  assert (Hnb : b <> []) by (intros H; discriminate H).
  clearbody a b.
  (* from here on the two strings are opaque: the recurrence is never run *)
  assert (Hlev : lev a b = 17).
  { rewrite matrixDistance_lev in Hcell. apply Nat2Z.inj.
    change (Z.of_nat 17) with 17%Z. congruence. }
  assert (Hdist : editDistance a b 17)
    by (rewrite <- Hlev; apply lev_is_editDistance).
  assert (Hexact : exactPercentage 17 40 = 58%Z) by (vm_compute; reflexivity).
  split; [exact Hrun|]. split; [exact Hdist|].
  split; [exact Hmax|]. split; [vm_compute; reflexivity|].
  split; [exact Hexact|]. split; [vm_compute; reflexivity|].
  split; [vm_compute; reflexivity|]. split; [vm_compute; reflexivity|].
  split.
  - right; right. split; [exact Hna|]. split; [exact Hnb|].
    exists 17. split; [exact Hdist|].
    rewrite Hmax. change (Z.of_nat 17) with 17%Z. symmetry. exact Hexact.
  - intros [(Ha & _)|[[[[Ha _]|[_ Hb]] _]|(_ & _ & d & Hd & Hr)]];
      [contradiction|contradiction|contradiction|].
    rewrite (editDistance_unique _ _ _ Hd), Hlev, Hmax in Hr.
    change (Z.of_nat 17) with 17%Z in Hr. rewrite Hexact in Hr.
    discriminate Hr.
Qed.

Example percentage_ties_go_up :
  percentage 1 8 = 88%Z /\ percentage 3 8 = 63%Z /\ percentage 3 7 = 57%Z.
Proof. vm_compute. repeat split. Qed.

Example similarity_kitten_sitting :
  calculateSimilarity (str "kitten") (str "sitting") = Ok 57%Z.
Proof. vm_compute. reflexivity. Qed.

(** ** The review operation *)

(** C7. For a level from 0 to 5 and a rating from 1 to 5, [recordReview]
    yields level [min(level + 1, 5)] when the rating is 3 or more and
    [max(level - 1, 0)] when it is below 3; the new level is again from 0
    to 5. *)
Theorem recordReview_level (progress : CardProgress) (rating now : Z) :
  (0 <= level progress <= 5)%Z -> (1 <= rating <= 5)%Z ->
  exists progress',
    recordReview progress rating now = inr progress' /\
    ((3 <= rating)%Z /\ level progress' = Z.min (level progress + 1) 5 \/
     (rating < 3)%Z /\ level progress' = Z.max (level progress - 1) 0) /\
    (0 <= level progress' <= 5)%Z.
Proof.
  intros Hlevel Hrating. unfold recordReview.
  destruct (Z.ltb_spec rating 1); [lia|].
  destruct (Z.ltb_spec 5 rating); [lia|]. simpl.
  eexists. split; [reflexivity|]. simpl.
  destruct (Z.leb_spec 3 rating); (split; [|lia]).
  - left. split; [lia|reflexivity].
  - right. split; [lia|reflexivity].
Qed.

Lemma recordReview_level_witness :
  exists progress',
    recordReview (mkProgress "gday" 4 None None) 5 1000 = inr progress' /\
    ((3 <= 5)%Z /\ level progress' = Z.min (4 + 1) 5 \/
     (5 < 3)%Z /\ level progress' = Z.max (4 - 1) 0) /\
    (0 <= level progress' <= 5)%Z.
Proof.
  apply (recordReview_level (mkProgress "gday" 4 None None) 5 1000);
    simpl; lia.
Defined.

(** C8. [recordReview] fails with [InvalidRating] exactly when the rating is
    outside 1..5, so for the ratings 0 and 6; there is no other failure; and
    a failed review leaves the stored progress as it was. *)
Theorem recordReview_invalid_rating (progress : CardProgress) (rating now : Z)
    (store : gmap string CardProgress) (id : string) :
  (recordReview progress rating now = inl InvalidRating <->
   ~ (1 <= rating <= 5)%Z) /\
  recordReview progress 0 now = inl InvalidRating /\
  recordReview progress 6 now = inl InvalidRating /\
  (forall e : ReviewError, e = InvalidRating) /\
  (snd (updateCardProgress store id rating now) = Some InvalidRating <->
   ~ (1 <= rating <= 5)%Z) /\
  (forall e, snd (updateCardProgress store id rating now) = Some e ->
             fst (updateCardProgress store id rating now) = store).
Proof.
  assert (Hfail : forall p,
             recordReview p rating now = inl InvalidRating <->
             ~ (1 <= rating <= 5)%Z).
  { intros p. unfold recordReview.
    destruct (Z.ltb_spec rating 1); destruct (Z.ltb_spec 5 rating); simpl;
      split; intros; try reflexivity; try lia; discriminate. }
  split; [apply Hfail|]. split; [reflexivity|]. split; [reflexivity|].
  split; [intros []; reflexivity|]. unfold updateCardProgress.
  specialize (Hfail (getCardProgress store id)).
  destruct (recordReview (getCardProgress store id) rating now) as [[]|p'];
    simpl; split.
  - tauto.
  - reflexivity.
  - split; [discriminate|]. intros Hno. apply Hfail in Hno. discriminate.
  - discriminate.
Qed.

(** * Further properties of the matching code *)

(** ** The distance in the last matrix cell *)

Section DistanceFacts.

Context {A : Type} `{EqDecision A}.

Implicit Types a b c : list A.

Lemma edit1_length a b :
  edit1 a b -> length a <= S (length b) /\ length b <= S (length a).
Proof. induction 1; simpl; lia. Qed.

Lemma edits_length (n : nat) a b :
  edits n a b -> length a <= n + length b /\ length b <= n + length a.
Proof.
  induction 1 as [l|n l1 l2 l3 Hstep _ IH]; [lia|].
  apply edit1_length in Hstep. lia.
Qed.

Lemma lev_zero a b : lev a b = 0 <-> a = b.
Proof.
  split; [|intros ->; apply lev_same].
  intros Hzero. pose proof (lev_reached a b) as Hreach.
  rewrite Hzero in Hreach. inversion Hreach. reflexivity.
Qed.

Lemma lev_triangle a b c : lev a c <= lev a b + lev b c.
Proof.
  apply lev_lower. eapply edits_trans; apply lev_reached.
Qed.

Lemma lev_length_gap a b :
  length a <= lev a b + length b /\ length b <= lev a b + length a.
Proof. apply edits_length, lev_reached. Qed.

End DistanceFacts.

(** X1. The number the three loops leave in [matrix[len1][len2]] is 0
    exactly when the two strings are equal, is at least the difference of
    their lengths and at most the longer length. *)
Theorem matrixDistance_bounds (str1 str2 : jsstring) :
  exists d : nat,
    matrixDistance str1 str2 = Ok (Z.of_nat d) /\
    (d = 0 <-> str1 = str2) /\
    length str1 <= d + length str2 /\
    length str2 <= d + length str1 /\
    d <= Nat.max (length str1) (length str2).
Proof.
  exists (lev str1 str2). split; [apply matrixDistance_lev|].
  split; [apply lev_zero|].
  pose proof (lev_length_gap str1 str2). pose proof (lev_le_longer str1 str2).
  lia.
Qed.

(** X2. The distances the matrix computes obey the triangle inequality:
    going from [a] to [c] never costs more than going through [b]. *)
Theorem matrixDistance_triangle (a b c : jsstring) :
  exists dab dbc dac : Z,
    matrixDistance a b = Ok dab /\ matrixDistance b c = Ok dbc /\
    matrixDistance a c = Ok dac /\ (dac <= dab + dbc)%Z.
Proof.
  exists (Z.of_nat (lev a b)), (Z.of_nat (lev b c)), (Z.of_nat (lev a c)).
  rewrite !matrixDistance_lev. repeat split; try reflexivity.
  pose proof (lev_triangle a b c). lia.
Qed.

(** ** Scores *)

Lemma percentage_zero (maxLen : Z) : (1 <= maxLen)%Z -> percentage 0 maxLen = 100%Z.
Proof.
  intros HL. destruct maxLen as [|p|p]; try lia. reflexivity.
Qed.

(** X3. A string is 100 percent similar to itself, the empty string
    included. *)
Theorem calculateSimilarity_same (s : jsstring) :
  calculateSimilarity s s = Ok 100%Z.
Proof.
  rewrite calculateSimilarity_lev. destruct s as [|c s]; [reflexivity|].
  unfold levSimilarity. rewrite lev_same. apply f_equal.
  apply percentage_zero. simpl length. lia.
Qed.

Lemma classify_score_range (target spoken : jsstring)
    (alternatives : list jsstring) (s : Z) (tier : Feedback) :
  classify target spoken alternatives s tier -> (0 <= s <= 100)%Z.
Proof.
  intros [?|? ?|sim ? ? Hsim ?|sim ? ? Hsim ? ? ?|sim tier' ? ? Hsim ? ? Htier];
    try lia; apply similarityIs_bounds in Hsim; lia.
Qed.

(** X4. Whatever the input, the score of [calculateMatch] is between 0 and
    100: the floors 85 and 70 never push it above 100. *)
Theorem calculateMatch_score_range (target spoken : jsstring)
    (alternatives : list jsstring) :
  exists r,
    calculateMatch target spoken alternatives = Ok r /\
    (0 <= score r <= 100)%Z.
Proof.
  destruct (calculateMatch_classified target spoken alternatives)
    as (s & tier & Hrun & Hrule).
  eexists. split; [exact Hrun|]. simpl.
  apply (classify_score_range _ _ _ _ _ Hrule).
Qed.

(** ** calculateMatch sees its arguments through their normal forms *)

Lemma classify_normal_forms (t1 s1 t2 s2 : jsstring)
    (alts1 alts2 : list jsstring) (s : Z) (tier : Feedback) :
  normalizeString t1 = normalizeString t2 ->
  normalizeString s1 = normalizeString s2 ->
  ((exists alt, alt ∈ alts1 /\ normalizeString alt = normalizeString t1) <->
   (exists alt, alt ∈ alts2 /\ normalizeString alt = normalizeString t2)) ->
  classify t1 s1 alts1 s tier -> classify t2 s2 alts2 s tier.
Proof.
  intros Ht Hs Halts Hc.
  destruct Hc as [H1|H1 H2|sim H1 H2 H3 H4|sim H1 H2 H3 H4 H5 H6
                  |sim tier' H1 H2 H3 H4 H5 H6];
    rewrite ?Ht, ?Hs, ?Halts in *.
  - apply rule_exact; assumption.
  - apply rule_alternative; assumption.
  - apply rule_contains; assumption.
  - apply rule_contained; assumption.
  - apply rule_threshold; assumption.
Qed.

Lemma calculateMatch_normal_forms (t1 s1 t2 s2 : jsstring)
    (alts1 alts2 : list jsstring) :
  normalizeString t1 = normalizeString t2 ->
  normalizeString s1 = normalizeString s2 ->
  ((exists alt, alt ∈ alts1 /\ normalizeString alt = normalizeString t1) <->
   (exists alt, alt ∈ alts2 /\ normalizeString alt = normalizeString t2)) ->
  exists s tier,
    calculateMatch t1 s1 alts1 = Ok (mkResult s tier s1) /\
    calculateMatch t2 s2 alts2 = Ok (mkResult s tier s2).
Proof.
  intros Ht Hs Halts.
  destruct (calculateMatch_classified t1 s1 alts1) as (s & tier & Hrun & Hrule).
  exists s, tier. split; [exact Hrun|].
  destruct (calculateMatch_classified t2 s2 alts2)
    as (s' & tier' & Hrun' & Hrule').
  pose proof (classify_normal_forms _ _ _ _ _ _ _ _ Ht Hs Halts Hrule) as Hc.
  destruct (classify_unique _ _ _ _ _ _ _ Hc Hrule') as [-> ->]. exact Hrun'.
Qed.

(** X5. The list of alternatives counts as a set: two lists with the same
    members, in any order and with any repetitions, give the same result. *)
Theorem calculateMatch_alternatives_as_set (target spoken : jsstring)
    (alts1 alts2 : list jsstring) :
  (forall alt, alt ∈ alts1 <-> alt ∈ alts2) ->
  calculateMatch target spoken alts1 = calculateMatch target spoken alts2.
Proof.
  intros Hsame.
  destruct (calculateMatch_normal_forms target spoken target spoken alts1 alts2)
    as (s & tier & H1 & H2); [reflexivity|reflexivity| |congruence].
  split; intros (alt & Hin & Halt); exists alt; split;
    try exact Halt; apply Hsame, Hin.
Qed.

Lemma calculateMatch_alternatives_as_set_witness :
  calculateMatch (str "arvo") (str "avo") [str "arvo"; str "ah"]
  = calculateMatch (str "arvo") (str "avo") [str "ah"; str "arvo"; str "ah"].
Proof.
  apply calculateMatch_alternatives_as_set.
  intros alt. rewrite !elem_of_cons, !elem_of_nil. tauto.
Defined.

(** X6. When the target normalizes to the empty string, as "?!" or "..."
    does, every spoken text scores at least 85, with the tier perfect,
    excellent or good. *)
Theorem calculateMatch_empty_target (target spoken : jsstring)
    (alternatives : list jsstring) :
  normalizeString target = [] ->
  exists r,
    calculateMatch target spoken alternatives = Ok r /\
    (85 <= score r)%Z /\
    (feedback r = perfect \/ feedback r = excellent \/ feedback r = good).
Proof.
  intros Hempty.
  destruct (calculateMatch_classified target spoken alternatives)
    as (s & tier & Hrun & Hrule).
  eexists. split; [exact Hrun|]. simpl.
  assert (Hsub : isSubstring (normalizeString target) (normalizeString spoken)).
  { rewrite Hempty. exists [], (normalizeString spoken). reflexivity. }
  destruct Hrule as [?|? ?|sim ? ? ? ?|sim ? ? ? Hno ? ?|sim tier' ? ? ? Hno ? ?];
    try contradiction.
  - split; [lia|]. left. reflexivity.
  - split; [lia|]. right; left. reflexivity.
  - split; [lia|]. right; right. reflexivity.
Qed.

Lemma calculateMatch_empty_target_witness :
  exists r,
    calculateMatch (str "?!") (str "anything at all") [] = Ok r /\
    (85 <= score r)%Z /\
    (feedback r = perfect \/ feedback r = excellent \/ feedback r = good).
Proof. apply calculateMatch_empty_target. reflexivity. Defined.

(** ** Lower-casing and trimming before normalizeString *)

Lemma lowerUnit_keep (c : N) :
  ~ (65 <= c <= 90)%N -> c <> 304%N -> c <> 8490%N -> Js.lowerUnit c = [c].
Proof.
  intros Hcap H304 H8490. unfold Js.lowerUnit.
  destruct (N.leb_spec 65 c), (N.leb_spec c 90); simpl; try lia;
    destruct (N.eqb_spec c 304%N); try contradiction;
    destruct (N.eqb_spec c 8490%N); try contradiction; reflexivity.
Qed.

Lemma lowerUnit_cases (c : N) :
  ((65 <= c <= 90)%N /\ Js.lowerUnit c = [(c + 32)%N]) \/
  (c = 304%N /\ Js.lowerUnit c = [105%N; 775%N]) \/
  (c = 8490%N /\ Js.lowerUnit c = [107%N]) \/
  (Js.lowerUnit c = [c]).
Proof.
  destruct (N.leb_spec 65 c) as [Hlo|Hlo], (N.leb_spec c 90) as [Hhi|Hhi].
  - left. split; [lia|]. unfold Js.lowerUnit.
    destruct (N.leb_spec 65 c), (N.leb_spec c 90); try lia. reflexivity.
  - destruct (N.eq_dec c 304%N) as [->|H304]; [right; left; split; reflexivity|].
    destruct (N.eq_dec c 8490%N) as [->|H8490];
      [right; right; left; split; reflexivity|].
    right; right; right. apply lowerUnit_keep; [lia|assumption..].
  - right; right; right. apply lowerUnit_keep; lia.
  - lia.
Qed.

(** Every code unit [toLowerCase] produces is one it leaves alone. *)
Lemma lowerUnit_settled (c : N) :
  Forall (fun u => Js.lowerUnit u = [u]) (Js.lowerUnit c).
Proof.
  destruct (lowerUnit_cases c) as [[Hc ->]|[[_ ->]|[[_ ->]|Hkeep]]].
  - constructor; [|constructor]. apply lowerUnit_keep; lia.
  - repeat constructor.
  - repeat constructor.
  - rewrite Hkeep. constructor; [exact Hkeep|constructor].
Qed.

Lemma toLowerCase_settled (s : jsstring) :
  Forall (fun u => Js.lowerUnit u = [u]) (Js.toLowerCase s).
Proof.
  unfold Js.toLowerCase. induction s as [|c s IH]; simpl; [constructor|].
  apply Forall_app. split; [apply lowerUnit_settled|exact IH].
Qed.

Lemma toLowerCase_fixed (s : jsstring) :
  Forall (fun u => Js.lowerUnit u = [u]) s -> Js.toLowerCase s = s.
Proof.
  unfold Js.toLowerCase. induction 1 as [|c s Hc _ IH]; [reflexivity|].
  simpl. rewrite Hc, IH. reflexivity.
Qed.

Lemma trimStart_fixed (s : jsstring) :
  match s with [] => True | c :: _ => Js.isWhiteSpace c = false end ->
  Js.trimStart s = s.
Proof. destruct s as [|c s]; [reflexivity|]. simpl. intros ->. reflexivity. Qed.

Lemma trimStart_head (s : jsstring) :
  match Js.trimStart s with
  | [] => True
  | c :: _ => Js.isWhiteSpace c = false
  end.
Proof.
  induction s as [|c s IH]; simpl; [exact I|].
  destruct (Js.isWhiteSpace c) eqn:Hw; [exact IH|exact Hw].
Qed.

Lemma trimEnd_prefix (s : jsstring) : exists after, s = Js.trimEnd s ++ after.
Proof.
  destruct (trimStart_suffix (rev s)) as [tail Ht].
  exists (rev tail). unfold Js.trimEnd.
  rewrite <- rev_app_distr, <- Ht, rev_involutive. reflexivity.
Qed.

Lemma trim_head (s : jsstring) :
  match Js.trim s with
  | [] => True
  | c :: _ => Js.isWhiteSpace c = false
  end.
Proof.
  unfold Js.trim. pose proof (trimStart_head s) as Hhead.
  destruct (trimEnd_prefix (Js.trimStart s)) as [after Hafter].
  destruct (Js.trimEnd (Js.trimStart s)) as [|c r]; [exact I|].
  rewrite Hafter in Hhead. exact Hhead.
Qed.

Lemma trim_idempotent (s : jsstring) : Js.trim (Js.trim s) = Js.trim s.
Proof.
  unfold Js.trim at 1. rewrite (trimStart_fixed _ (trim_head s)).
  unfold Js.trim, Js.trimEnd. rewrite rev_involutive.
  rewrite (trimStart_fixed _ (trimStart_head _)). reflexivity.
Qed.

(** Lower-casing and trimming a string beforehand, as the hook does with the
    target word and with every transcript, does not change its normal
    form. *)
Lemma normalizeString_preprocessed (s : jsstring) :
  normalizeString (Js.trim (Js.toLowerCase s)) = normalizeString s.
Proof.
  unfold normalizeString.
  assert (Hfixed : Forall (fun u => Js.lowerUnit u = [u])
                     (Js.trim (Js.toLowerCase s))).
  { destruct (trim_segment (Js.toLowerCase s)) as (before & after & Hseg).
    pose proof (toLowerCase_settled s) as Hall. rewrite Hseg in Hall.
    apply Forall_app in Hall as [_ Hall].
    apply Forall_app in Hall as [Hall _]. exact Hall. }
  rewrite (toLowerCase_fixed _ Hfixed), trim_idempotent. reflexivity.
Qed.

(** ** The hook's use of calculateMatch *)

(** X7. The lower-casing and trimming the hook applies to the target word
    and to the transcripts change nothing in the verdict: a final result
    gets the score and the tier [calculateMatch] gives to the raw target
    word and the raw transcripts. *)
Theorem onresult_matches_raw_input (st : VoicePractice.state)
    (targetWord first : jsstring) (others : list jsstring) :
  VoicePractice.isSupported st = true -> targetWord <> [] ->
  exists st' r r',
    VoicePractice.onresult (first :: others) true
      (VoicePractice.startListening targetWord st) = Ok st' /\
    VoicePractice.result st' = Some r /\
    calculateMatch targetWord first (first :: others) = Ok r' /\
    score r = score r' /\ feedback r = feedback r'.
Proof.
  intros Hsup Hword. unfold VoicePractice.startListening.
  rewrite Hsup. destruct targetWord as [|c w]; [congruence|].
  cbn [negb orb length Nat.eqb]. unfold VoicePractice.onresult.
  cbn [VoicePractice.targetWordRef VoicePractice.isSupported
       VoicePractice.isListening VoicePractice.error].
  destruct (calculateMatch_normal_forms
              (Js.trim (Js.toLowerCase (c :: w)))
              (Js.trim (Js.toLowerCase first))
              (c :: w) first
              (map (fun t => Js.trim (Js.toLowerCase t)) (first :: others))
              (first :: others))
    as (s & tier & Hrun & Hraw).
  - apply normalizeString_preprocessed.
  - apply normalizeString_preprocessed.
  - rewrite normalizeString_preprocessed. split.
    + intros (alt & Hin & Halt). apply list_elem_of_fmap in Hin as (raw & -> & Hin).
      exists raw. split; [exact Hin|].
      rewrite normalizeString_preprocessed in Halt. exact Halt.
    + intros (alt & Hin & Halt). exists (Js.trim (Js.toLowerCase alt)).
      split; [apply list_elem_of_fmap; exists alt; split; [reflexivity|exact Hin]|].
      rewrite normalizeString_preprocessed. exact Halt.
  - rewrite Hrun, bind_Ok. eexists _, _, _.
    split; [reflexivity|]. split; [reflexivity|]. split; [exact Hraw|].
    split; reflexivity.
Qed.

Lemma onresult_matches_raw_input_witness :
  exists st' r r',
    VoicePractice.onresult [str "G'Day Mate "; str "good mate"] true
      (VoicePractice.startListening (str " G'day, mate!")
         (VoicePractice.mkState true false [] None None [])) = Ok st' /\
    VoicePractice.result st' = Some r /\
    calculateMatch (str " G'day, mate!") (str "G'Day Mate ")
      [str "G'Day Mate "; str "good mate"] = Ok r' /\
    score r = score r' /\ feedback r = feedback r'.
Proof.
  apply onresult_matches_raw_input; [reflexivity|discriminate].
Defined.

(** X8. The hook passes the best transcript again as the first
    alternative, so it can never earn the tier excellent by itself: a final
    result is excellent only if one of the other transcripts normalizes to
    the target, and never when the recognizer returned a single
    transcript. *)
Theorem onresult_excellent_needs_other (st : VoicePractice.state)
    (first : jsstring) (others : list jsstring) :
  exists st' r,
    VoicePractice.onresult (first :: others) true st = Ok st' /\
    VoicePractice.result st' = Some r /\
    (feedback r = excellent ->
     exists alt, alt ∈ others /\
       normalizeString alt = normalizeString (VoicePractice.targetWordRef st)) /\
    (others = [] -> feedback r <> excellent).
Proof.
  unfold VoicePractice.onresult.
  destruct (calculateMatch_classified (VoicePractice.targetWordRef st)
              (Js.trim (Js.toLowerCase first))
              (map (fun t => Js.trim (Js.toLowerCase t)) (first :: others)))
    as (s & tier & Hrun & Hrule).
  rewrite Hrun, bind_Ok. eexists _, _.
  split; [reflexivity|]. split; [reflexivity|]. cbn [feedback].
  assert (Hother : tier = excellent ->
            exists alt, alt ∈ others /\
              normalizeString alt
              = normalizeString (VoicePractice.targetWordRef st)).
  { intros ->. inversion Hrule as [|Hdiff (alt & Hin & Halt)| | |? ? ? ? ? ? ? Htier];
      [|inversion Htier].
    simpl in Hin. apply elem_of_cons in Hin as [->|Hin]; [contradiction|].
    apply list_elem_of_fmap in Hin as (raw & -> & Hin).
    exists raw. split; [exact Hin|].
    rewrite normalizeString_preprocessed in Halt. exact Halt. }
  split; [exact Hother|].
  intros -> Hex. destruct (Hother Hex) as (alt & Hin & _).
  apply elem_of_nil in Hin. exact Hin.
Qed.

Example onresult_excellent_by_second_transcript :
  exists st',
    VoicePractice.onresult [str "Avo"; str "Arvo!"] true
      (VoicePractice.mkState true true [] None None (str "arvo")) = Ok st' /\
    VoicePractice.result st' = Some (mkResult 95 excellent (str "avo")).
Proof. eexists. split; vm_compute; reflexivity. Qed.

(** ** What normalizeString keeps *)

Lemma collapseFrom_alnum (inRun : bool) (s : jsstring) :
  List.filter isAlnum (collapseFrom inRun s) = List.filter isAlnum s.
Proof.
  revert inRun. induction s as [|c s IH]; intros inRun; [reflexivity|].
  simpl. destruct (Js.isWhiteSpace c) eqn:Hw.
  - assert (Hc : isAlnum c = false).
    { destruct (isAlnum c) eqn:Hal; [|reflexivity].
      exfalso. assert (Hn : isNormalUnit c).
      { unfold isNormalUnit. unfold isAlnum in Hal.
        apply orb_true_iff in Hal as [Hl|Hd]; auto. }
      pose proof (normal_white_is_space c Hn Hw) as ->. discriminate. }
    rewrite Hc. destruct inRun; [apply IH|]. simpl. apply IH.
  - simpl. rewrite IH. reflexivity.
Qed.

Lemma stripOthers_alnum (s : jsstring) :
  List.filter isAlnum (stripOthers s) = List.filter isAlnum s.
Proof.
  unfold stripOthers. induction s as [|c s IH]; [reflexivity|]. simpl.
  destruct (keptByClass c) eqn:Hk; simpl; rewrite IH; [reflexivity|].
  unfold keptByClass in Hk. unfold isAlnum.
  destruct (Js.isLowerAZ c || Js.isDigit c); [discriminate|reflexivity].
Qed.

Lemma white_not_alnum (c : N) : Js.isWhiteSpace c = true -> isAlnum c = false.
Proof.
  intros Hw. pose proof (collapseFrom_alnum true [c]) as H.
  simpl in H. rewrite Hw in H. simpl in H.
  destruct (isAlnum c); [discriminate|reflexivity].
Qed.

Lemma trimStart_alnum (s : jsstring) :
  List.filter isAlnum (Js.trimStart s) = List.filter isAlnum s.
Proof.
  induction s as [|c s IH]; [reflexivity|]. simpl.
  destruct (Js.isWhiteSpace c) eqn:Hw; [|reflexivity].
  rewrite (white_not_alnum c Hw). exact IH.
Qed.

Lemma filter_rev_alnum (s : jsstring) :
  List.filter isAlnum (rev s) = rev (List.filter isAlnum s).
Proof.
  induction s as [|c s IH]; [reflexivity|]. simpl.
  rewrite List.filter_app, IH. simpl.
  destruct (isAlnum c); simpl; [reflexivity|apply app_nil_r].
Qed.

Lemma trim_alnum (s : jsstring) :
  List.filter isAlnum (Js.trim s) = List.filter isAlnum s.
Proof.
  unfold Js.trim, Js.trimEnd.
  rewrite filter_rev_alnum, trimStart_alnum, filter_rev_alnum, rev_involutive.
  apply trimStart_alnum.
Qed.

(** X9. [normalizeString] loses no letter and no digit and keeps them in
    order: the letters and digits of its output are those of the lower-cased
    input.  Only case, punctuation and spacing change. *)
Theorem normalizeString_keeps_letters_and_digits (s : jsstring) :
  List.filter isAlnum (normalizeString s)
  = List.filter isAlnum (Js.toLowerCase s).
Proof.
  unfold normalizeString, collapseSpaces.
  rewrite collapseFrom_alnum, stripOthers_alnum, trim_alnum. reflexivity.
Qed.

Lemma collapseFrom_length (inRun : bool) (s : jsstring) :
  length (collapseFrom inRun s) <= length s.
Proof.
  revert inRun. induction s as [|c s IH]; intros inRun; simpl; [lia|].
  pose proof (IH true). pose proof (IH false).
  destruct (Js.isWhiteSpace c); [destruct inRun|]; simpl; lia.
Qed.

Lemma stripOthers_app (s t : jsstring) :
  stripOthers (s ++ t) = stripOthers s ++ stripOthers t.
Proof. apply List.filter_app. Qed.

Lemma stripOthers_lowerUnit (c : N) : length (stripOthers (Js.lowerUnit c)) <= 1.
Proof.
  destruct (lowerUnit_cases c) as [[_ ->]|[[_ ->]|[[_ ->]| ->]]];
    unfold stripOthers; simpl; try lia;
    match goal with |- context [keptByClass ?u] => destruct (keptByClass u) end;
    simpl; lia.
Qed.

Lemma stripOthers_toLowerCase_length (s : jsstring) :
  length (stripOthers (Js.toLowerCase s)) <= length s.
Proof.
  unfold Js.toLowerCase. induction s as [|c s IH]; simpl; [lia|].
  rewrite stripOthers_app, length_app.
  pose proof (stripOthers_lowerUnit c). lia.
Qed.

(** X10. [normalizeString] never returns a string longer than its input. *)
Theorem normalizeString_length (s : jsstring) :
  length (normalizeString s) <= length s.
Proof.
  unfold normalizeString, collapseSpaces.
  pose proof (collapseFrom_length false
                (stripOthers (Js.trim (Js.toLowerCase s)))) as Hcollapse.
  destruct (trim_segment (Js.toLowerCase s)) as (before & after & Hseg).
  pose proof (stripOthers_toLowerCase_length s) as Hstrip.
  rewrite Hseg, !stripOthers_app, !length_app in Hstrip. lia.
Qed.

(** * Properties of the screens around the engines *)

(** ** Stepping through a deck of flashcards *)

Lemma nextCard_index (cards i : Z) :
  (0 < cards)%Z -> (0 <= i < cards)%Z ->
  Z.rem (i + 1) cards = (if (i + 1 <? cards)%Z then i + 1 else 0)%Z.
Proof.
  intros Hcards Hi. rewrite Z.rem_mod_nonneg by lia.
  destruct (Z.ltb_spec (i + 1) cards).
  - apply Z.mod_small. lia.
  - replace (i + 1)%Z with cards by lia. apply Z.mod_same. lia.
Qed.

Lemma prevCard_index (cards i : Z) :
  (0 < cards)%Z -> (0 <= i < cards)%Z ->
  Z.rem (i - 1 + cards) cards = (if (i =? 0)%Z then cards - 1 else i - 1)%Z.
Proof.
  intros Hcards Hi. rewrite Z.rem_mod_nonneg by lia.
  destruct (Z.eqb_spec i 0) as [->|Hne].
  - replace (0 - 1 + cards)%Z with (cards - 1)%Z by lia.
    apply Z.mod_small. lia.
  - replace (i - 1 + cards)%Z with (i - 1 + 1 * cards)%Z by lia.
    rewrite Z.mod_add by lia. apply Z.mod_small. lia.
Qed.

(** X11. On a deck that is not empty, Next and Previous keep the index
    inside the deck, and each undoes the other, also across the two ends. *)
Theorem nextCard_prevCard_inverse (cards : Z) (st : SlangFlashcards.state) :
  (0 < cards)%Z -> (0 <= SlangFlashcards.currentIndex st < cards)%Z ->
  (0 <= SlangFlashcards.currentIndex (SlangFlashcards.nextCard cards st)
   < cards)%Z /\
  (0 <= SlangFlashcards.currentIndex (SlangFlashcards.prevCard cards st)
   < cards)%Z /\
  SlangFlashcards.currentIndex
    (SlangFlashcards.prevCard cards (SlangFlashcards.nextCard cards st))
  = SlangFlashcards.currentIndex st /\
  SlangFlashcards.currentIndex
    (SlangFlashcards.nextCard cards (SlangFlashcards.prevCard cards st))
  = SlangFlashcards.currentIndex st.
Proof.
  intros Hcards Hi. destruct st as [i flipped]. simpl in *.
  pose proof (nextCard_index cards i Hcards Hi) as Hnext.
  pose proof (prevCard_index cards i Hcards Hi) as Hprev.
  assert (Hn : (0 <= Z.rem (i + 1) cards < cards)%Z).
  { rewrite Hnext. destruct (Z.ltb_spec (i + 1) cards); lia. }
  assert (Hp : (0 <= Z.rem (i - 1 + cards) cards < cards)%Z).
  { rewrite Hprev. destruct (Z.eqb_spec i 0); lia. }
  split; [exact Hn|]. split; [exact Hp|]. split.
  - rewrite (prevCard_index cards _ Hcards Hn), Hnext.
    destruct (Z.ltb_spec (i + 1) cards);
      match goal with |- context [(?x =? 0)%Z] => destruct (Z.eqb_spec x 0) end;
      lia.
  - rewrite (nextCard_index cards _ Hcards Hp), Hprev.
    destruct (Z.eqb_spec i 0);
      match goal with |- context [(?x <? cards)%Z] =>
        destruct (Z.ltb_spec x cards) end; lia.
Qed.

Lemma nextCard_prevCard_inverse_witness :
  (0 <= SlangFlashcards.currentIndex
          (SlangFlashcards.nextCard 3 (SlangFlashcards.mkState 2 true)) < 3)%Z /\
  (0 <= SlangFlashcards.currentIndex
          (SlangFlashcards.prevCard 3 (SlangFlashcards.mkState 2 true)) < 3)%Z /\
  SlangFlashcards.currentIndex
    (SlangFlashcards.prevCard 3
       (SlangFlashcards.nextCard 3 (SlangFlashcards.mkState 2 true)))
  = SlangFlashcards.currentIndex (SlangFlashcards.mkState 2 true) /\
  SlangFlashcards.currentIndex
    (SlangFlashcards.nextCard 3
       (SlangFlashcards.prevCard 3 (SlangFlashcards.mkState 2 true)))
  = SlangFlashcards.currentIndex (SlangFlashcards.mkState 2 true).
Proof.
  apply (nextCard_prevCard_inverse 3 (SlangFlashcards.mkState 2 true));
    simpl; lia.
Defined.

Lemma nextCard_iter (cards : Z) (st : SlangFlashcards.state) (k : nat) :
  (0 < cards)%Z -> (0 <= SlangFlashcards.currentIndex st < cards)%Z ->
  SlangFlashcards.currentIndex (Nat.iter k (SlangFlashcards.nextCard cards) st)
  = ((SlangFlashcards.currentIndex st + Z.of_nat k) mod cards)%Z.
Proof.
  intros Hcards Hi. induction k as [|k IH].
  - simpl. rewrite Z.add_0_r. symmetry. apply Z.mod_small. exact Hi.
  - rewrite Nat.iter_succ. unfold SlangFlashcards.nextCard at 1. simpl.
    rewrite IH. rewrite Z.rem_mod_nonneg.
    + rewrite Zplus_mod_idemp_l. f_equal. lia.
    + pose proof (Z.mod_pos_bound
                    (SlangFlashcards.currentIndex st + Z.of_nat k) cards Hcards).
      lia.
    + exact Hcards.
Qed.

(** X12. Pressing Next goes round the whole deck: from any card every card
    is reached in fewer presses than there are cards, and as many presses as
    there are cards lead back to the start. *)
Theorem nextCard_visits_every_card (cards : nat) (st : SlangFlashcards.state) :
  (0 <= SlangFlashcards.currentIndex st < Z.of_nat cards)%Z ->
  (forall j : Z, (0 <= j < Z.of_nat cards)%Z ->
     exists k : nat,
       k < cards /\
       SlangFlashcards.currentIndex
         (Nat.iter k (SlangFlashcards.nextCard (Z.of_nat cards)) st) = j) /\
  SlangFlashcards.currentIndex
    (Nat.iter cards (SlangFlashcards.nextCard (Z.of_nat cards)) st)
  = SlangFlashcards.currentIndex st.
Proof.
  intros Hi. assert (Hcards : (0 < Z.of_nat cards)%Z) by lia. split.
  - intros j Hj.
    exists (Z.to_nat ((j - SlangFlashcards.currentIndex st) mod Z.of_nat cards)).
    pose proof (Z.mod_pos_bound (j - SlangFlashcards.currentIndex st)
                  (Z.of_nat cards) Hcards) as Hbound.
    split; [lia|]. rewrite nextCard_iter by assumption.
    rewrite Z2Nat.id by lia. rewrite Zplus_mod_idemp_r.
    replace (SlangFlashcards.currentIndex st
             + (j - SlangFlashcards.currentIndex st))%Z with j by lia.
    apply Z.mod_small. exact Hj.
  - rewrite nextCard_iter by assumption.
    replace (SlangFlashcards.currentIndex st + Z.of_nat cards)%Z
      with (SlangFlashcards.currentIndex st + 1 * Z.of_nat cards)%Z by lia.
    rewrite Z.mod_add by lia. apply Z.mod_small. exact Hi.
Qed.

Lemma nextCard_visits_every_card_witness :
  (forall j : Z, (0 <= j < Z.of_nat 4)%Z ->
     exists k : nat,
       k < 4 /\
       SlangFlashcards.currentIndex
         (Nat.iter k (SlangFlashcards.nextCard (Z.of_nat 4))
            (SlangFlashcards.mkState 1 false)) = j) /\
  SlangFlashcards.currentIndex
    (Nat.iter 4 (SlangFlashcards.nextCard (Z.of_nat 4))
       (SlangFlashcards.mkState 1 false))
  = SlangFlashcards.currentIndex (SlangFlashcards.mkState 1 false).
Proof.
  apply (nextCard_visits_every_card 4 (SlangFlashcards.mkState 1 false)).
  simpl. lia.
Defined.

(** ** The review screen *)

Section ReviewHandlers.

Context {Store : Type}.

Variable updateCardProgress : string -> Z -> Store -> Store.

Lemma perform_stats (a : VocabularyReview.action)
    (st : VocabularyReview.state Store) (n : Z) :
  (0 <= VocabularyReview.correct (VocabularyReview.sessionStats st)
   <= VocabularyReview.reviewed (VocabularyReview.sessionStats st))%Z ->
  (VocabularyReview.reviewed (VocabularyReview.sessionStats st) <= n)%Z ->
  (0 <= VocabularyReview.correct
          (VocabularyReview.sessionStats
             (VocabularyReview.perform updateCardProgress a st))
   <= VocabularyReview.reviewed
        (VocabularyReview.sessionStats
           (VocabularyReview.perform updateCardProgress a st)))%Z /\
  (VocabularyReview.reviewed
     (VocabularyReview.sessionStats
        (VocabularyReview.perform updateCardProgress a st)) <= n + 1)%Z.
Proof.
  intros Hc Hn. destruct a as [deck rating|deck|]; simpl.
  - unfold VocabularyReview.handleRate.
    destruct (VocabularyReview.cardAt deck (VocabularyReview.currentIndex st));
      simpl; [|lia].
    destruct (3 <=? rating)%Z; lia.
  - lia.
  - lia.
Qed.

Lemma performAll_stats (actions : list VocabularyReview.action)
    (st : VocabularyReview.state Store) (n : Z) :
  (0 <= VocabularyReview.correct (VocabularyReview.sessionStats st)
   <= VocabularyReview.reviewed (VocabularyReview.sessionStats st))%Z ->
  (VocabularyReview.reviewed (VocabularyReview.sessionStats st) <= n)%Z ->
  (0 <= VocabularyReview.correct
          (VocabularyReview.sessionStats
             (VocabularyReview.performAll updateCardProgress actions st))
   <= VocabularyReview.reviewed
        (VocabularyReview.sessionStats
           (VocabularyReview.performAll updateCardProgress actions st)))%Z /\
  (VocabularyReview.reviewed
     (VocabularyReview.sessionStats
        (VocabularyReview.performAll updateCardProgress actions st))
   <= n + Z.of_nat (length actions))%Z.
Proof.
  revert st n. induction actions as [|a actions IH]; intros st n Hc Hn.
  - simpl. lia.
  - destruct (perform_stats a st n Hc Hn) as [Hc' Hn'].
    destruct (IH _ _ Hc' Hn') as [Hc'' Hn'']. simpl length.
    unfold VocabularyReview.performAll in *. simpl. split; [exact Hc''|lia].
Qed.

End ReviewHandlers.

(** X13. However the user rates, skips and resets, starting from a fresh
    session, the counter of correct answers never exceeds the counter of
    reviewed cards, and neither exceeds the number of actions taken. *)
Theorem review_session_stats {Store : Type}
    (updateCardProgress : string -> Z -> Store -> Store)
    (actions : list VocabularyReview.action) (store : Store) :
  let st :=
    VocabularyReview.performAll updateCardProgress actions
      (VocabularyReview.mkState 0 false (VocabularyReview.mkStats 0 0) store) in
  (0 <= VocabularyReview.correct (VocabularyReview.sessionStats st)
   <= VocabularyReview.reviewed (VocabularyReview.sessionStats st))%Z /\
  (VocabularyReview.reviewed (VocabularyReview.sessionStats st)
   <= Z.of_nat (length actions))%Z.
Proof.
  apply (performAll_stats updateCardProgress actions _ 0); simpl; lia.
Qed.

(** X14. With the index on a card of the deck, a rating goes to exactly that
    card, the rated or skipped card is followed by the next one, the last
    card by the first, and the index stays inside the deck. *)
Theorem review_rates_the_card_shown {Store : Type}
    (updateCardProgress : string -> Z -> Store -> Store)
    (currentCards : list VocabularyReview.SlangTerm) (rating : Z)
    (st : VocabularyReview.state Store) (currentCard : VocabularyReview.SlangTerm) :
  (0 <= VocabularyReview.currentIndex st)%Z ->
  currentCards !! Z.to_nat (VocabularyReview.currentIndex st) = Some currentCard ->
  let rated := VocabularyReview.handleRate updateCardProgress currentCards rating st in
  let skipped := VocabularyReview.handleSkip currentCards st in
  VocabularyReview.progress rated
  = updateCardProgress (VocabularyReview.id currentCard) rating
      (VocabularyReview.progress st) /\
  VocabularyReview.progress skipped = VocabularyReview.progress st /\
  VocabularyReview.currentIndex rated = VocabularyReview.currentIndex skipped /\
  VocabularyReview.currentIndex skipped
  = (if (VocabularyReview.currentIndex st + 1
         =? Z.of_nat (length currentCards))%Z
     then 0 else VocabularyReview.currentIndex st + 1)%Z /\
  (0 <= VocabularyReview.currentIndex skipped
   < Z.of_nat (length currentCards))%Z.
Proof.
  intros Hnonneg Hcard rated skipped. subst rated skipped.
  unfold VocabularyReview.handleRate, VocabularyReview.handleSkip,
    VocabularyReview.cardAt.
  destruct (Z.ltb_spec (VocabularyReview.currentIndex st) 0); [lia|].
  rewrite Hcard. simpl. apply lookup_lt_Some in Hcard.
  unfold VocabularyReview.advance.
  destruct (Z.ltb_spec (VocabularyReview.currentIndex st)
              (Z.of_nat (length currentCards) - 1));
    destruct (Z.eqb_spec (VocabularyReview.currentIndex st + 1)
                (Z.of_nat (length currentCards)));
    repeat split; try reflexivity; lia.
Qed.

Lemma review_rates_the_card_shown_witness :
  let currentCards :=
    [VocabularyReview.mkTerm "arvo" "Arvo" "Afternoon" "See you this arvo"
       "time" "beginner";
     VocabularyReview.mkTerm "servo" "Servo" "Petrol station"
       "Stop at the servo" "places" "beginner"] in
  let st :=
    VocabularyReview.mkState 1 true (VocabularyReview.mkStats 0 0)
      ([] : list (string * Z)) in
  let rated :=
    VocabularyReview.handleRate (fun id rating store => (id, rating) :: store)
      currentCards 4 st in
  VocabularyReview.progress rated = [("servo"%string, 4%Z)] /\
  VocabularyReview.currentIndex rated = 0%Z.
Proof.
  intros currentCards st rated.
  destruct (review_rates_the_card_shown
              (fun id rating store => (id, rating) :: store)
              currentCards 4 st
              (VocabularyReview.mkTerm "servo" "Servo" "Petrol station"
                 "Stop at the servo" "places" "beginner"))
    as (Hprogress & _ & Hindex & Hskip & _); [simpl; lia|reflexivity|].
  subst rated. split; [exact Hprogress|]. rewrite Hindex. exact Hskip.
Defined.

(** ** Statistics per category *)

Section CategoryStatistics.

Variable getCardProgress : string -> CardProgress.

Local Abbreviation bump c acc t :=
  (VocabularyReview.mkCategoryStats
     (VocabularyReview.total (default (VocabularyReview.mkCategoryStats 0 0 0)
                                (acc !! c)) + 1)
     (VocabularyReview.learned (default (VocabularyReview.mkCategoryStats 0 0 0)
                                  (acc !! c))
      + (if (1 <=? level (getCardProgress (VocabularyReview.id t)))%Z
         then 1 else 0))
     (VocabularyReview.mastered (default (VocabularyReview.mkCategoryStats 0 0 0)
                                   (acc !! c))
      + (if (5 <=? level (getCardProgress (VocabularyReview.id t)))%Z
         then 1 else 0))).

Lemma countTerm_other (acc : gmap string VocabularyReview.CategoryStats)
    (t : VocabularyReview.SlangTerm) (c : string) :
  VocabularyReview.category t <> c ->
  VocabularyReview.countTerm getCardProgress acc t !! c = acc !! c.
Proof.
  intros Hne. unfold VocabularyReview.countTerm.
  destruct (5 <=? _)%Z, (1 <=? _)%Z, (acc !! VocabularyReview.category t),
    (VocabularyReview.inherited (VocabularyReview.category t));
    rewrite ?lookup_alter_ne, ?lookup_insert_ne by exact Hne; reflexivity.
Qed.

Lemma countTerm_same (acc : gmap string VocabularyReview.CategoryStats)
    (t : VocabularyReview.SlangTerm) :
  is_Some (acc !! VocabularyReview.category t) \/
  VocabularyReview.inherited (VocabularyReview.category t) = false ->
  VocabularyReview.countTerm getCardProgress acc t
    !! VocabularyReview.category t
  = Some (bump (VocabularyReview.category t) acc t).
Proof.
  intros Hown. unfold VocabularyReview.countTerm.
  destruct (acc !! VocabularyReview.category t) as [s|] eqn:Hacc.
  - destruct (5 <=? _)%Z, (1 <=? _)%Z;
      rewrite ?lookup_alter_eq, ?Hacc; simpl; f_equal; f_equal; lia.
  - destruct Hown as [[s Hs]| ->]; [discriminate|].
    destruct (5 <=? _)%Z, (1 <=? _)%Z;
      rewrite ?lookup_alter_eq, ?lookup_insert_eq; simpl;
      f_equal; f_equal; lia.
Qed.

Lemma countTerm_inherited (acc : gmap string VocabularyReview.CategoryStats)
    (t : VocabularyReview.SlangTerm) :
  acc !! VocabularyReview.category t = None ->
  VocabularyReview.inherited (VocabularyReview.category t) = true ->
  VocabularyReview.countTerm getCardProgress acc t = acc.
Proof.
  intros Hacc Hinh. unfold VocabularyReview.countTerm.
  rewrite Hacc, Hinh. reflexivity.
Qed.

Lemma reaching_cons (lvl : Z) (t : VocabularyReview.SlangTerm)
    (terms : list VocabularyReview.SlangTerm) :
  VocabularyReview.reaching getCardProgress lvl (t :: terms)
  = ((if (lvl <=? level (getCardProgress (VocabularyReview.id t)))%Z
      then 1 else 0)
     + VocabularyReview.reaching getCardProgress lvl terms)%Z.
Proof.
  unfold VocabularyReview.reaching. simpl.
  destruct (lvl <=? _)%Z; simpl length; lia.
Qed.

Lemma tally_Some (b : VocabularyReview.CategoryStats)
    (terms : list VocabularyReview.SlangTerm) :
  VocabularyReview.tally getCardProgress (Some b) terms
  = Some (VocabularyReview.mkCategoryStats
            (VocabularyReview.total b + Z.of_nat (length terms))
            (VocabularyReview.learned b
             + VocabularyReview.reaching getCardProgress 1 terms)
            (VocabularyReview.mastered b
             + VocabularyReview.reaching getCardProgress 5 terms)).
Proof. destruct terms; reflexivity. Qed.

Lemma tally_cons (o : option VocabularyReview.CategoryStats)
    (t : VocabularyReview.SlangTerm) (terms : list VocabularyReview.SlangTerm) :
  VocabularyReview.tally getCardProgress o (t :: terms)
  = Some (VocabularyReview.mkCategoryStats
            (VocabularyReview.total
               (default (VocabularyReview.mkCategoryStats 0 0 0) o)
             + Z.of_nat (length (t :: terms)))
            (VocabularyReview.learned
               (default (VocabularyReview.mkCategoryStats 0 0 0) o)
             + VocabularyReview.reaching getCardProgress 1 (t :: terms))
            (VocabularyReview.mastered
               (default (VocabularyReview.mkCategoryStats 0 0 0) o)
             + VocabularyReview.reaching getCardProgress 5 (t :: terms))).
Proof. destruct o; reflexivity. Qed.

Lemma categoryStats_fold (slangData : list VocabularyReview.SlangTerm)
    (acc : gmap string VocabularyReview.CategoryStats) (c : string) :
  is_Some (acc !! c) \/ VocabularyReview.inherited c = false ->
  fold_left (VocabularyReview.countTerm getCardProgress) slangData acc !! c
  = VocabularyReview.tally getCardProgress (acc !! c)
      (VocabularyReview.inCategory c slangData).
Proof.
  revert acc. induction slangData as [|t slangData IH]; intros acc Hown.
  - simpl. destruct (acc !! c) as [[tot lea mas]|]; [|reflexivity].
    unfold VocabularyReview.tally, VocabularyReview.reaching. simpl.
    f_equal. f_equal; lia.
  - simpl fold_left. unfold VocabularyReview.inCategory.
    simpl List.filter.
    destruct (decide (VocabularyReview.category t = c)) as [<-|Hne].
    + rewrite IH by (left; rewrite countTerm_same by exact Hown; eauto).
      rewrite countTerm_same by exact Hown.
      unfold VocabularyReview.inCategory.
      rewrite tally_Some, tally_cons, !reaching_cons.
      simpl length. cbn [VocabularyReview.total VocabularyReview.learned
                         VocabularyReview.mastered].
      f_equal. f_equal; lia.
    + rewrite IH by (rewrite (countTerm_other acc t c Hne); exact Hown).
      rewrite (countTerm_other acc t c Hne). reflexivity.
Qed.

Lemma categoryStats_fold_inherited
    (slangData : list VocabularyReview.SlangTerm)
    (acc : gmap string VocabularyReview.CategoryStats) (c : string) :
  acc !! c = None -> VocabularyReview.inherited c = true ->
  fold_left (VocabularyReview.countTerm getCardProgress) slangData acc !! c
  = None.
Proof.
  intros Hacc Hinh. revert acc Hacc.
  induction slangData as [|t slangData IH]; intros acc Hacc; [exact Hacc|].
  simpl fold_left. apply IH.
  destruct (decide (VocabularyReview.category t = c)) as [Heq|Hne].
  - rewrite countTerm_inherited by (rewrite Heq; assumption). exact Hacc.
  - rewrite (countTerm_other acc t c Hne). exact Hacc.
Qed.

End CategoryStatistics.

Lemma reaching_bounds (getCardProgress : string -> CardProgress)
    (terms : list VocabularyReview.SlangTerm) :
  (0 <= VocabularyReview.reaching getCardProgress 5 terms
   <= VocabularyReview.reaching getCardProgress 1 terms)%Z /\
  (VocabularyReview.reaching getCardProgress 1 terms
   <= Z.of_nat (length terms))%Z.
Proof.
  unfold VocabularyReview.reaching.
  induction terms as [|t terms IH]; simpl; [lia|].
  destruct (Z.leb_spec 5 (level (getCardProgress (VocabularyReview.id t))));
    destruct (Z.leb_spec 1 (level (getCardProgress (VocabularyReview.id t))));
    simpl length; lia.
Qed.

(** X15. The statistics list exactly the categories that occur in the
    catalogue and are not the name of a member of [Object.prototype]; a
    category called [constructor] or [toString] gets no entry.  For each
    category listed [total] is the number of its terms, [learned] the number
    of those at level 1 or more and [mastered] the number at level 5 or
    more, so that [mastered <= learned <= total] and [total] is at least
    1. *)
Theorem categoryStats_counts (getCardProgress : string -> CardProgress)
    (slangData : list VocabularyReview.SlangTerm) (c : string) :
  let terms := VocabularyReview.inCategory c slangData in
  (VocabularyReview.categoryStats getCardProgress slangData !! c = None <->
   terms = [] \/ VocabularyReview.inherited c = true) /\
  forall s,
    VocabularyReview.categoryStats getCardProgress slangData !! c = Some s ->
    VocabularyReview.total s = Z.of_nat (length terms) /\
    VocabularyReview.learned s = VocabularyReview.reaching getCardProgress 1 terms /\
    VocabularyReview.mastered s = VocabularyReview.reaching getCardProgress 5 terms /\
    (0 <= VocabularyReview.mastered s <= VocabularyReview.learned s)%Z /\
    (VocabularyReview.learned s <= VocabularyReview.total s)%Z /\
    (1 <= VocabularyReview.total s)%Z.
Proof.
  intros terms. unfold VocabularyReview.categoryStats.
  destruct (VocabularyReview.inherited c) eqn:Hinh.
  { rewrite (categoryStats_fold_inherited getCardProgress slangData ∅ c
               (lookup_empty c) Hinh).
    split; [tauto|]. intros s Hs. discriminate. }
  rewrite categoryStats_fold by (right; exact Hinh).
  rewrite lookup_empty. fold terms.
  pose proof (reaching_bounds getCardProgress terms) as Hbounds.
  destruct terms as [|t terms'] eqn:Hterms.
  - split; [tauto|]. intros s Hs. discriminate.
  - rewrite tally_cons. split.
    + split; [discriminate|]. intros [Hnil|Hfalse]; discriminate.
    + intros s [= <-]. simpl in *. lia.
Qed.

Example categoryStats_two_categories :
  let getCardProgress id :=
    mkProgress id (if String.eqb id "arvo" then 5 else 0) None None in
  let slangData :=
    [VocabularyReview.mkTerm "arvo" "Arvo" "Afternoon" "" "time" "beginner";
     VocabularyReview.mkTerm "servo" "Servo" "Petrol station" "" "places"
       "beginner";
     VocabularyReview.mkTerm "smoko" "Smoko" "Break" "" "time" "beginner"] in
  VocabularyReview.categoryStats getCardProgress slangData !! "time"%string
  = Some (VocabularyReview.mkCategoryStats 2 1 1) /\
  VocabularyReview.categoryStats getCardProgress slangData !! "food"%string
  = None.
Proof. split; vm_compute; reflexivity. Qed.

(** A category named like a member of [Object.prototype] is not listed,
    and the other categories are counted as before. *)
Example categoryStats_inherited_name :
  let getCardProgress id := mkProgress id 1 None None in
  let slangData :=
    [VocabularyReview.mkTerm "a" "A" "" "" "constructor" "beginner";
     VocabularyReview.mkTerm "b" "B" "" "" "time" "beginner";
     VocabularyReview.mkTerm "c" "C" "" "" "constructor" "beginner"] in
  VocabularyReview.categoryStats getCardProgress slangData
    !! "constructor"%string = None /\
  VocabularyReview.categoryStats getCardProgress slangData !! "time"%string
  = Some (VocabularyReview.mkCategoryStats 1 1 0).
Proof. split; vm_compute; reflexivity. Qed.

(** ** Ticking the options of the feedback form *)

Lemma toggle_off (id : jsstring) (prev : list jsstring) (j : jsstring) :
  j ∈ List.filter (fun i => if decide (i = id) then false else true) prev <->
  j ∈ prev /\ j <> id.
Proof.
  rewrite !list_elem_of_In, List.filter_In.
  destruct (decide (j = id)); split; intros [? ?]; split;
    congruence || assumption.
Qed.

(** X16. Ticking an option toggles it and nothing else: the option is
    selected afterwards exactly if it was not before, every other option
    keeps its state, a list without repetitions stays without, and ticking
    an option that was not selected twice gives back the very same list. *)
Theorem toggle_flips_one_option (id : jsstring) (prev : list jsstring) :
  (id ∈ SessionFeedback.toggle id prev <-> id ∉ prev) /\
  (forall j, j <> id -> (j ∈ SessionFeedback.toggle id prev <-> j ∈ prev)) /\
  (NoDup prev -> NoDup (SessionFeedback.toggle id prev)) /\
  (id ∉ prev ->
   SessionFeedback.toggle id (SessionFeedback.toggle id prev) = prev).
Proof.
  unfold SessionFeedback.toggle at 1 2 3.
  destruct (decide (id ∈ prev)) as [Hin|Hout].
  - split; [|split; [|split]].
    + rewrite toggle_off. tauto.
    + intros j Hj. rewrite toggle_off. tauto.
    + intros Hnodup. apply NoDup_ListNoDup, List.NoDup_filter.
      apply NoDup_ListNoDup, Hnodup.
    + contradiction.
  - split; [|split; [|split]].
    + rewrite elem_of_app, list_elem_of_singleton. tauto.
    + intros j Hj. rewrite elem_of_app, list_elem_of_singleton. tauto.
    + intros Hnodup. apply NoDup_app. split; [exact Hnodup|].
      split; [|apply NoDup_singleton].
      intros x Hx Hx'. apply list_elem_of_singleton in Hx'. congruence.
    + intros _. unfold SessionFeedback.toggle.
      destruct (decide (id ∈ prev)) as [|_]; [contradiction|].
      destruct (decide (id ∈ prev ++ [id])) as [_|Hno].
      * rewrite List.filter_app. simpl.
        destruct (decide (id = id)); [|congruence].
        rewrite app_nil_r. clear -Hout.
        induction prev as [|x prev IH]; [reflexivity|]. simpl.
        apply not_elem_of_cons in Hout as [Hx Hout].
        destruct (decide (x = id)); [congruence|]. rewrite (IH Hout).
        reflexivity.
      * exfalso. apply Hno. rewrite elem_of_app, list_elem_of_singleton. tauto.
Qed.

(** ** The result reported by the speech-recognition hook *)

Lemma mathMax_spec (a b : Q) :
  (a <= SpeechRecognition.mathMax a b)%Q /\
  (b <= SpeechRecognition.mathMax a b)%Q /\
  (SpeechRecognition.mathMax a b = a \/ SpeechRecognition.mathMax a b = b).
Proof.
  unfold SpeechRecognition.mathMax.
  destruct (Qcompare_spec a b) as [Heq|Hlt|Hgt].
  - split; [apply Qle_refl|]. split; [rewrite Heq; apply Qle_refl|left; reflexivity].
  - split; [apply Qlt_le_weak, Hlt|]. split; [apply Qle_refl|right; reflexivity].
  - split; [apply Qle_refl|]. split; [apply Qlt_le_weak, Hgt|left; reflexivity].
Qed.

Lemma textOf_cons (final : bool) (r : SpeechRecognition.ResultItem)
    (window : list SpeechRecognition.ResultItem) :
  SpeechRecognition.textOf final (r :: window)
  = (if Bool.eqb (SpeechRecognition.itemIsFinal r) final
     then SpeechRecognition.itemTranscript r else [])
    ++ SpeechRecognition.textOf final window.
Proof.
  unfold SpeechRecognition.textOf. simpl.
  destruct (Bool.eqb _ final); reflexivity.
Qed.

Lemma loop_result (window : list SpeechRecognition.ResultItem)
    (finalTranscript interimTranscript : jsstring) (bestConfidence : Q) :
  exists best,
    fold_left SpeechRecognition.loopBody window
      (finalTranscript, interimTranscript, bestConfidence)
    = (finalTranscript ++ SpeechRecognition.textOf true window,
       interimTranscript ++ SpeechRecognition.textOf false window, best) /\
    (bestConfidence <= best)%Q /\
    (forall r, r ∈ window -> SpeechRecognition.itemIsFinal r = true ->
               (SpeechRecognition.itemConfidence r <= best)%Q) /\
    (best = bestConfidence \/
     exists r, r ∈ window /\ SpeechRecognition.itemIsFinal r = true /\
               best = SpeechRecognition.itemConfidence r).
Proof.
  revert finalTranscript interimTranscript bestConfidence.
  induction window as [|r window IH]; intros f i b.
  - exists b. simpl. rewrite !app_nil_r.
    split; [reflexivity|]. split; [apply Qle_refl|].
    split; [|left; reflexivity]. intros r Hr. apply elem_of_nil in Hr. tauto.
  - assert (Hstep :
      SpeechRecognition.loopBody (f, i, b) r
      = if SpeechRecognition.itemIsFinal r
        then (f ++ SpeechRecognition.itemTranscript r, i,
              SpeechRecognition.mathMax b (SpeechRecognition.itemConfidence r))
        else (f, i ++ SpeechRecognition.itemTranscript r, b))
      by reflexivity.
    change (fold_left SpeechRecognition.loopBody (r :: window) (f, i, b))
      with (fold_left SpeechRecognition.loopBody window
              (SpeechRecognition.loopBody (f, i, b) r)).
    rewrite Hstep, !textOf_cons. clear Hstep.
    destruct (SpeechRecognition.itemIsFinal r) eqn:Hfinal.
    + destruct (IH (f ++ SpeechRecognition.itemTranscript r) i
                  (SpeechRecognition.mathMax b
                     (SpeechRecognition.itemConfidence r)))
        as (best & Hrun & Hlow & Hall & Hsome).
      destruct (mathMax_spec b (SpeechRecognition.itemConfidence r))
        as (Hb & Hr & Hchoice).
      exists best. simpl. rewrite Hrun, <- app_assoc.
      split; [reflexivity|]. split; [eapply Qle_trans; eassumption|]. split.
      * intros r' Hin Hf. apply elem_of_cons in Hin as [->|Hin].
        -- eapply Qle_trans; eassumption.
        -- apply Hall; assumption.
      * destruct Hsome as [->|(r' & Hin & Hf & ->)].
        -- destruct Hchoice as [->| ->]; [left; reflexivity|].
           right. exists r. split; [apply list_elem_of_here|].
           split; [exact Hfinal|reflexivity].
        -- right. exists r'. split; [apply list_elem_of_further, Hin|].
           split; [exact Hf|reflexivity].
    + destruct (IH f (i ++ SpeechRecognition.itemTranscript r) b)
        as (best & Hrun & Hlow & Hall & Hsome).
      exists best. simpl. rewrite Hrun, <- app_assoc.
      split; [reflexivity|]. split; [exact Hlow|]. split.
      * intros r' Hin Hf. apply elem_of_cons in Hin as [->|Hin]; [congruence|].
        apply Hall; assumption.
      * destruct Hsome as [->|(r' & Hin & Hf & ->)]; [left; reflexivity|].
        right. exists r'. split; [apply list_elem_of_further, Hin|].
        split; [exact Hf|reflexivity].
Qed.

Lemma textOf_nonempty (final : bool)
    (window : list SpeechRecognition.ResultItem) :
  SpeechRecognition.textOf final window <> [] <->
  exists r, r ∈ window /\ SpeechRecognition.itemIsFinal r = final /\
            SpeechRecognition.itemTranscript r <> [].
Proof.
  induction window as [|r window IH].
  - split; [intros H; contradiction|].
    intros (r & Hr & _). apply elem_of_nil in Hr. contradiction.
  - rewrite textOf_cons. split.
    + intros Hne.
      destruct (Bool.eqb (SpeechRecognition.itemIsFinal r) final) eqn:Hf.
      * destruct (SpeechRecognition.itemTranscript r) as [|c t] eqn:Ht.
        -- simpl in Hne. apply IH in Hne as (r' & Hin & Hr').
           exists r'. split; [apply list_elem_of_further, Hin|exact Hr'].
        -- exists r. split; [apply list_elem_of_here|].
           split; [apply Bool.eqb_prop, Hf|]. rewrite Ht. discriminate.
      * simpl in Hne. apply IH in Hne as (r' & Hin & Hr').
        exists r'. split; [apply list_elem_of_further, Hin|exact Hr'].
    + intros (r' & Hin & Hfinal & Htext).
      apply elem_of_cons in Hin as [->|Hin].
      * rewrite Hfinal, Bool.eqb_reflx.
        destruct (SpeechRecognition.itemTranscript r); [congruence|discriminate].
      * intros Hnil. apply app_eq_nil in Hnil as [_ Hnil].
        revert Hnil. apply IH. exists r'. split; [exact Hin|].
        split; assumption.
Qed.

(** X17. The hook reports a result as final exactly when some final result
    from [resultIndex] on has a transcript that is not empty; the transcript
    it reports is then the final transcripts put together, and otherwise the
    interim ones.  Final results whose transcripts are all empty are
    reported as not final. *)
Theorem onresult_reports_final_text (resultIndex : nat)
    (results : list SpeechRecognition.ResultItem) :
  let window := drop resultIndex results in
  let reported := SpeechRecognition.onresult resultIndex results in
  (SpeechRecognition.isFinal reported = true <->
   exists r, r ∈ window /\ SpeechRecognition.itemIsFinal r = true /\
             SpeechRecognition.itemTranscript r <> []) /\
  SpeechRecognition.transcript reported
  = (if SpeechRecognition.isFinal reported
     then SpeechRecognition.textOf true window
     else SpeechRecognition.textOf false window).
Proof.
  intros window reported. subst reported. unfold SpeechRecognition.onresult.
  fold window.
  destruct (loop_result window [] [] 0%Q) as (best & -> & _).
  rewrite <- textOf_nonempty. simpl.
  destruct (SpeechRecognition.textOf true window); simpl.
  - split; [|reflexivity]. split; [discriminate|congruence].
  - split; [|reflexivity]. split; [discriminate|reflexivity].
Qed.

Example onresult_empty_final_text :
  SpeechRecognition.onresult 1
    [SpeechRecognition.mkItem true (str "old") (9 # 10);
     SpeechRecognition.mkItem true [] (8 # 10);
     SpeechRecognition.mkItem false (str "no wor") (1 # 10)]
  = SpeechRecognition.mkResult (str "no wor") (8 # 10) false.
Proof. reflexivity. Qed.

(** X18. The confidence the hook reports is never negative and never
    below the confidence of a final result from [resultIndex] on; it is 0
    or the confidence of one of these final results.  Interim results do
    not count. *)
Theorem onresult_reports_best_confidence (resultIndex : nat)
    (results : list SpeechRecognition.ResultItem) :
  let window := drop resultIndex results in
  let reported := SpeechRecognition.onresult resultIndex results in
  (0 <= SpeechRecognition.confidence reported)%Q /\
  (forall r, r ∈ window -> SpeechRecognition.itemIsFinal r = true ->
     (SpeechRecognition.itemConfidence r
      <= SpeechRecognition.confidence reported)%Q) /\
  (SpeechRecognition.confidence reported = 0%Q \/
   exists r, r ∈ window /\ SpeechRecognition.itemIsFinal r = true /\
             SpeechRecognition.confidence reported
             = SpeechRecognition.itemConfidence r).
Proof.
  intros window reported. subst reported. unfold SpeechRecognition.onresult.
  fold window.
  destruct (loop_result window [] [] 0%Q) as (best & -> & Hlow & Hall & Hsome).
  simpl. split; [exact Hlow|]. split; [exact Hall|exact Hsome].
Qed.

(** ** Highlighting slang *)

Lemma slang_keys_nonempty :
  Forall (fun term : jsstring => term <> [])
    (map fst SessionTranscript.AUSSIE_SLANG).
Proof. repeat constructor; discriminate. Qed.

Lemma slang_keys_plain :
  forallb (fun term => forallb SessionTranscript.isKeyUnit term)
    (map fst SessionTranscript.AUSSIE_SLANG) = true.
Proof. vm_compute. reflexivity. Qed.

Example slang_keys_need_no_escape :
  forallb (fun term => forallb (fun c => negb (SessionTranscript.isRegexSpecial c)) term)
    (map fst SessionTranscript.AUSSIE_SLANG) = true.
Proof. vm_compute. reflexivity. Qed.

Lemma canonicalize_lower (p c : N) :
  SessionTranscript.isKeyUnit p = true ->
  SessionTranscript.canonicalize p = SessionTranscript.canonicalize c ->
  Js.lowerUnit c = [p].
Proof.
  unfold SessionTranscript.isKeyUnit, SessionTranscript.canonicalize.
  intros Hkey Hcanon.
  destruct (N.leb_spec 97 p), (N.leb_spec p 122), (N.ltb_spec p 65);
    simpl in *; try discriminate;
    destruct (N.leb_spec 97 c), (N.leb_spec c 122); simpl in *;
    try (assert (c = p) as -> by lia; apply lowerUnit_keep; lia);
    try lia;
    try (unfold Js.lowerUnit;
         destruct (N.leb_spec 65 c), (N.leb_spec c 90); simpl; try lia;
         f_equal; lia).
Qed.

Lemma matchLiteral_spec (literal text matched rest : jsstring) :
  SessionTranscript.matchLiteral literal text = Some (matched, rest) ->
  text = matched ++ rest /\
  Forall2 (fun p c => SessionTranscript.canonicalize p
                      = SessionTranscript.canonicalize c) literal matched.
Proof.
  revert text matched. induction literal as [|p literal IH]; intros text matched.
  - simpl. intros [= <- <-]. split; [reflexivity|constructor].
  - destruct text as [|c text]; [discriminate|]. simpl.
    destruct (N.eqb_spec (SessionTranscript.canonicalize p)
                (SessionTranscript.canonicalize c)) as [Hpc|]; [|discriminate].
    destruct (SessionTranscript.matchLiteral literal text) as [[m r]|] eqn:Hm;
      [|discriminate].
    intros [= <- <-]. destruct (IH _ _ Hm) as [-> Hall].
    split; [reflexivity|]. constructor; assumption.
Qed.

Lemma matchAlternatives_spec (terms : list jsstring) (prev : option N)
    (text matched rest : jsstring) :
  SessionTranscript.matchAlternatives terms prev text = Some (matched, rest) ->
  text = matched ++ rest /\
  SessionTranscript.wordBoundary
    (SessionTranscript.unitBefore prev matched) (head rest) = true /\
  exists term, term ∈ terms /\
    Forall2 (fun p c => SessionTranscript.canonicalize p
                        = SessionTranscript.canonicalize c) term matched.
Proof.
  induction terms as [|term terms IH]; [discriminate|]. simpl.
  assert (Hlater :
    SessionTranscript.matchAlternatives terms prev text = Some (matched, rest) ->
    text = matched ++ rest /\
    SessionTranscript.wordBoundary
      (SessionTranscript.unitBefore prev matched) (head rest) = true /\
    exists term0, term0 ∈ term :: terms /\
      Forall2 (fun p c => SessionTranscript.canonicalize p
                          = SessionTranscript.canonicalize c) term0 matched).
  { intros H. destruct (IH H) as (Htext & Hend & term0 & Hin & Hall).
    split; [exact Htext|]. split; [exact Hend|]. exists term0.
    split; [apply list_elem_of_further, Hin|exact Hall]. }
  destruct (SessionTranscript.matchLiteral term text) as [[m r]|] eqn:Hm;
    [|exact Hlater].
  destruct (SessionTranscript.wordBoundary
              (SessionTranscript.unitBefore prev m) (head r)) eqn:Hend;
    [|exact Hlater].
  intros [= <- <-]. destruct (matchLiteral_spec _ _ _ _ Hm) as [Htext Hall].
  split; [exact Htext|]. split; [exact Hend|].
  exists term. split; [apply list_elem_of_here|exact Hall].
Qed.

Lemma unitBefore_last (consumed more : jsstring) :
  SessionTranscript.unitBefore (last consumed) more = last (consumed ++ more).
Proof.
  unfold SessionTranscript.unitBefore. rewrite last_app.
  destruct (last more); reflexivity.
Qed.

Lemma unitBefore_cons (prev : option N) (c : N) (more : jsstring) :
  SessionTranscript.unitBefore (Some c) more
  = SessionTranscript.unitBefore prev (c :: more).
Proof.
  unfold SessionTranscript.unitBefore.
  change (c :: more) with ([c] ++ more). rewrite last_app.
  destruct (last more); reflexivity.
Qed.

Lemma unitBefore_app (prev : option N) (a b : jsstring) :
  SessionTranscript.unitBefore (SessionTranscript.unitBefore prev a) b
  = SessionTranscript.unitBefore prev (a ++ b).
Proof.
  unfold SessionTranscript.unitBefore. rewrite last_app.
  destruct (last b); [reflexivity|]. destruct (last a); reflexivity.
Qed.

Lemma exec_spec (prev : option N) (index : nat) (text : jsstring)
    (found : nat) (matched rest : jsstring) :
  SessionTranscript.exec prev index text = Some (found, matched, rest) ->
  exists before,
    text = before ++ matched ++ rest /\ found = index + length before /\
    SessionTranscript.wordBoundary
      (SessionTranscript.unitBefore prev before) (head (matched ++ rest))
    = true /\
    SessionTranscript.wordBoundary
      (SessionTranscript.unitBefore prev (before ++ matched)) (head rest)
    = true /\
    exists term, term ∈ map fst SessionTranscript.AUSSIE_SLANG /\
      Forall2 (fun p c => SessionTranscript.canonicalize p
                          = SessionTranscript.canonicalize c) term matched.
Proof.
  assert (Hhere : forall prev index text,
    SessionTranscript.matchAt prev text = Some (matched, rest) ->
    exists before,
      text = before ++ matched ++ rest /\ index = index + length before /\
      SessionTranscript.wordBoundary
        (SessionTranscript.unitBefore prev before) (head (matched ++ rest))
      = true /\
      SessionTranscript.wordBoundary
        (SessionTranscript.unitBefore prev (before ++ matched)) (head rest)
      = true /\
      exists term, term ∈ map fst SessionTranscript.AUSSIE_SLANG /\
        Forall2 (fun p c => SessionTranscript.canonicalize p
                            = SessionTranscript.canonicalize c) term matched).
  { intros prev0 index0 text0 Hm. unfold SessionTranscript.matchAt in Hm.
    destruct (SessionTranscript.wordBoundary prev0 (head text0)) eqn:Hstart;
      [|discriminate].
    apply matchAlternatives_spec in Hm as (Htext & Hend & Hterm).
    exists []. split; [exact Htext|]. split; [simpl; lia|].
    split; [rewrite <- Htext; exact Hstart|]. split; [exact Hend|exact Hterm]. }
  revert prev index. induction text as [|c text IH]; intros prev index; simpl.
  - destruct (SessionTranscript.matchAt prev []) as [[m r]|] eqn:Hm;
      [|discriminate].
    intros [= <- <- <-]. apply Hhere, Hm.
  - destruct (SessionTranscript.matchAt prev (c :: text)) as [[m r]|] eqn:Hm.
    + intros [= <- <- <-]. apply Hhere, Hm.
    + intros Hexec.
      destruct (IH _ _ Hexec) as (before & -> & -> & Hstart & Hend & Hterm).
      exists (c :: before). split; [reflexivity|]. split; [simpl; lia|].
      rewrite (unitBefore_cons prev) in Hstart, Hend.
      split; [exact Hstart|]. split; [exact Hend|exact Hterm].
Qed.

Lemma orElse_same (a : option jsstring) : SessionTranscript.orElse a a = a.
Proof. destruct a as [[|c d]|]; reflexivity. Qed.

Lemma matched_term_sound (term matched : jsstring) :
  term ∈ map fst SessionTranscript.AUSSIE_SLANG ->
  Forall2 (fun p c => SessionTranscript.canonicalize p
                      = SessionTranscript.canonicalize c) term matched ->
  matched <> [] /\
  exists meaning,
    (Js.toLowerCase matched, meaning) ∈ SessionTranscript.AUSSIE_SLANG /\
    SessionTranscript.definitionOf (Js.toLowerCase matched) = Some meaning.
Proof.
  intros Hin Hall.
  assert (Hplain : Forall (fun c => SessionTranscript.isKeyUnit c = true) term).
  { pose proof slang_keys_plain as Hkeys.
    rewrite forallb_forall in Hkeys. apply list_elem_of_In in Hin.
    specialize (Hkeys term Hin). rewrite forallb_forall in Hkeys.
    apply List.Forall_forall. exact Hkeys. }
  assert (Hne : term <> []).
  { pose proof slang_keys_nonempty as Hkeys.
    rewrite List.Forall_forall in Hkeys. apply Hkeys, list_elem_of_In, Hin. }
  assert (Hlower : Js.toLowerCase matched = term).
  { clear Hin Hne. unfold Js.toLowerCase.
    induction Hall as [|p c term matched Hpc _ IH]; [reflexivity|].
    inversion Hplain as [|? ? Hp Hrest]; subst. simpl.
    rewrite (canonicalize_lower p c Hp Hpc), (IH Hrest). reflexivity. }
  split.
  - destruct Hall; [congruence|discriminate].
  - rewrite Hlower. unfold SessionTranscript.definitionOf.
    destruct (List.find _ SessionTranscript.AUSSIE_SLANG) as [[key meaning]|]
      eqn:Hfind.
    + apply List.find_some in Hfind as [Hentry Hkey]. simpl in Hkey.
      destruct (decide (key = term)) as [->|]; [|discriminate].
      exists meaning. split; [apply list_elem_of_In, Hentry|reflexivity].
    + exfalso. apply list_elem_of_fmap in Hin as ([key meaning] & -> & Hentry).
      apply list_elem_of_In in Hentry.
      pose proof (List.find_none _ _ Hfind _ Hentry) as Hno. simpl in Hno.
      destruct (decide (key = key)); [discriminate|congruence].
Qed.

Lemma highlightLoop_spec (fuel : nat) (consumed : jsstring) (lastIndex : nat)
    (rest : jsstring) (parts : list SessionTranscript.Part) :
  length rest < fuel ->
  exists added,
    SessionTranscript.highlightLoop fuel (last consumed) lastIndex rest parts
    = parts ++ added /\
    concat (map SessionTranscript.partText added) = rest /\
    Forall SessionTranscript.partIsSound added /\
    SessionTranscript.indexedFrom lastIndex added /\
    SessionTranscript.boundedBy consumed added.
Proof.
  revert consumed lastIndex rest parts.
  induction fuel as [|fuel IH]; intros consumed lastIndex rest parts Hfuel; [lia|].
  set (prev := last consumed).
  cbn [SessionTranscript.highlightLoop].
  destruct (SessionTranscript.exec prev lastIndex rest)
    as [[[index matched] rest']|] eqn:Hexec; cbv zeta.
  - destruct (exec_spec _ _ _ _ _ _ Hexec)
      as (before & Hrest & Hindex & Hstart & Hend & term & Hin & Hall).
    destruct (matched_term_sound term matched Hin Hall)
      as (Hne & meaning & Hentry & Hdef).
    unfold SessionTranscript.replaceApostrophe. rewrite orElse_same, Hdef.
    assert (Hlen : 0 < length matched) by (destruct matched; [congruence|simpl; lia]).
    assert (Htake : take (index - lastIndex) rest = before).
    { rewrite Hrest, Hindex.
      replace (lastIndex + length before - lastIndex) with (length before) by lia.
      apply take_app_length. }
    rewrite Htake. subst prev.
    rewrite unitBefore_last in Hstart, Hend |- *.
    assert (Hhead : head (matched ++ rest') = head matched)
      by (destruct matched; [congruence|reflexivity]).
    assert (Hlast : last (consumed ++ before ++ matched) = last matched).
    { rewrite app_assoc, last_app.
      destruct (last matched) eqn:Hm; [reflexivity|].
      apply last_None in Hm. congruence. }
    rewrite Hhead in Hstart. rewrite Hlast in Hend.
    match goal with
    | |- context [SessionTranscript.highlightLoop fuel _ ?li rest' ?ps] =>
        destruct (IH (consumed ++ before ++ matched) li rest' ps)
          as (added & Hrun & Htext & Hsound & Hidx & Hbound)
    end.
    { rewrite Hrest, !length_app in Hfuel. lia. }
    rewrite Hrun.
    destruct (Nat.ltb_spec lastIndex index) as [Hlt|Hge].
    + exists (SessionTranscript.Text before
              :: SessionTranscript.Slang index matched (Some meaning) :: added).
      split; [rewrite <- !app_assoc; reflexivity|]. split; [|split; [|split]].
      * simpl. rewrite Htext. symmetry. exact Hrest.
      * constructor; [|constructor; [|exact Hsound]].
        -- simpl. destruct before; [simpl in Hindex; lia|discriminate].
        -- simpl. exists (Js.toLowerCase matched), meaning. auto.
      * simpl. split; [exact I|]. split; [lia|].
        replace (lastIndex + length before + length matched)
          with (index + length matched) by lia. exact Hidx.
      * simpl. split; [exact I|]. rewrite Htext, <- app_assoc. auto.
    + assert (before = []) as -> by (destruct before; [reflexivity|simpl in Hindex; lia]).
      exists (SessionTranscript.Slang index matched (Some meaning) :: added).
      split; [rewrite <- !app_assoc; reflexivity|]. split; [|split; [|split]].
      * simpl. rewrite Htext. symmetry. exact Hrest.
      * constructor; [|exact Hsound].
        simpl. exists (Js.toLowerCase matched), meaning. auto.
      * simpl in *. split; [lia|].
        replace (lastIndex + length matched) with (index + length matched) by lia.
        exact Hidx.
      * simpl in *. rewrite app_nil_r in Hstart. rewrite Htext. auto.
  - destruct rest as [|c rest].
    + exists []. simpl. rewrite app_nil_r. repeat split; constructor.
    + exists [SessionTranscript.Text (c :: rest)]. simpl. rewrite app_nil_r.
      split; [reflexivity|]. split; [reflexivity|].
      split; [repeat constructor; discriminate|]. simpl. auto.
Qed.

Lemma highlightSlangInText_spec (text : jsstring) :
  exists parts,
    SessionTranscript.highlightLoop (S (length text)) None 0 text [] = parts /\
    concat (map SessionTranscript.partText parts) = text /\
    Forall SessionTranscript.partIsSound parts /\
    SessionTranscript.indexedFrom 0 parts /\
    SessionTranscript.boundedBy [] parts.
Proof.
  destruct (highlightLoop_spec (S (length text)) [] 0 text [])
    as (added & Hrun & Htext & Hsound & Hidx & Hbound); [lia|].
  exists added. split; [exact Hrun|]. auto.
Qed.

Lemma highlight_invariant (text : jsstring) :
  concat (map SessionTranscript.partText
            (SessionTranscript.highlightSlangInText text)) = text /\
  SessionTranscript.indexedFrom 0 (SessionTranscript.highlightSlangInText text) /\
  SessionTranscript.boundedBy [] (SessionTranscript.highlightSlangInText text).
Proof.
  unfold SessionTranscript.highlightSlangInText.
  destruct (highlightSlangInText_spec text)
    as (parts & -> & Htext & _ & Hidx & Hb).
  destruct parts as [|p parts]; [|auto].
  simpl in *. rewrite app_nil_r. split; [congruence|auto].
Qed.

Lemma indexedFrom_lookup (offset : nat) (parts : list SessionTranscript.Part)
    (k index : nat) (matched : jsstring) (title : option jsstring) :
  SessionTranscript.indexedFrom offset parts ->
  parts !! k = Some (SessionTranscript.Slang index matched title) ->
  index = offset + length (concat (map SessionTranscript.partText (take k parts))).
Proof.
  revert offset k. induction parts as [|p parts IH]; intros offset k Hidx Hk.
  - discriminate.
  - destruct Hidx as [Hhere Hrest]. destruct k as [|k].
    + simpl in Hk. injection Hk as ->. simpl. lia.
    + simpl in Hk. rewrite (IH _ _ Hrest Hk). simpl. rewrite length_app. lia.
Qed.

Lemma highlight_split (text : jsstring) (k index : nat)
    (matched : jsstring) (title : option jsstring) :
  SessionTranscript.highlightSlangInText text !! k
  = Some (SessionTranscript.Slang index matched title) ->
  let parts := SessionTranscript.highlightSlangInText text in
  index = length (concat (map SessionTranscript.partText (take k parts))) /\
  text = concat (map SessionTranscript.partText (take k parts)) ++ matched
         ++ concat (map SessionTranscript.partText (drop (S k) parts)).
Proof.
  intros Hk parts. destruct (highlight_invariant text) as (Hkeeps & Hidx & _).
  fold parts in Hkeeps, Hidx, Hk.
  split; [exact (indexedFrom_lookup 0 _ _ _ _ _ Hidx Hk)|].
  rewrite <- (take_drop_middle parts k _ Hk) in Hkeeps at 1.
  rewrite map_app, concat_app in Hkeeps. simpl in Hkeeps.
  symmetry. exact Hkeeps.
Qed.

(** X19. Highlighting loses nothing: the parts of the result, put together
    in order, are the text of the message again. *)
Theorem highlightSlangInText_keeps_text (text : jsstring) :
  concat (map SessionTranscript.partText
            (SessionTranscript.highlightSlangInText text)) = text.
Proof. apply highlight_invariant. Qed.

(** X20. Every highlighted part is, up to the case of its letters, a key of
    the slang table, and its tooltip is the meaning the table gives for that
    key: no highlight is left without a title.  The plain parts between
    highlights are never empty, unless the message itself is empty. *)
Theorem highlightSlangInText_parts (text : jsstring) :
  Forall
    (fun p =>
       match p with
       | SessionTranscript.Text s => s <> [] \/ text = []
       | SessionTranscript.Slang _ matched title =>
           exists key meaning,
             (key, meaning) ∈ SessionTranscript.AUSSIE_SLANG /\
             Js.toLowerCase matched = key /\ title = Some meaning
       end)
    (SessionTranscript.highlightSlangInText text).
Proof.
  unfold SessionTranscript.highlightSlangInText.
  destruct (highlightSlangInText_spec text) as (parts & -> & Htext & Hsound & _).
  destruct parts as [|p parts].
  - constructor; [|constructor]. right. simpl in Htext. congruence.
  - eapply Forall_impl; [exact Hsound|].
    intros [s|i m t] Hp; simpl in *; [left; exact Hp|exact Hp].
Qed.

(** X21. The index in the key of a highlight is the offset at which the
    highlight starts in the message: it equals the length of all parts
    before it, and the message holds the highlighted text at that offset. *)
Theorem highlightSlangInText_index (text : jsstring) (k index : nat)
    (matched : jsstring) (title : option jsstring) :
  SessionTranscript.highlightSlangInText text !! k
  = Some (SessionTranscript.Slang index matched title) ->
  index
  = length (concat (map SessionTranscript.partText
                      (take k (SessionTranscript.highlightSlangInText text)))) /\
  take (length matched) (drop index text) = matched.
Proof.
  intros Hk. destruct (highlight_split text k index matched title Hk)
    as [Hindex Htext].
  split; [exact Hindex|].
  rewrite Htext at 1. rewrite Hindex, drop_app_length.
  apply take_app_length.
Qed.

Lemma highlightSlangInText_index_witness :
  SessionTranscript.highlightSlangInText (str "ta mate") !! 2
  = Some (SessionTranscript.Slang 3 (str "mate") (Some (str "Friend/Buddy"))) /\
  (3 = length (concat (map SessionTranscript.partText
                         (take 2 (SessionTranscript.highlightSlangInText
                                    (str "ta mate"))))) /\
   take (length (str "mate")) (drop 3 (str "ta mate")) = str "mate").
Proof.
  split; [vm_compute; reflexivity|].
  apply (highlightSlangInText_index (str "ta mate") 2 3 (str "mate")
           (Some (str "Friend/Buddy"))).
  vm_compute. reflexivity.
Defined.

Lemma boundedBy_lookup (consumed : jsstring)
    (parts : list SessionTranscript.Part) (k index : nat)
    (matched : jsstring) (title : option jsstring) :
  SessionTranscript.boundedBy consumed parts ->
  parts !! k = Some (SessionTranscript.Slang index matched title) ->
  SessionTranscript.wordBoundary
    (last (consumed ++ concat (map SessionTranscript.partText (take k parts))))
    (head matched) = true /\
  SessionTranscript.wordBoundary (last matched)
    (head (concat (map SessionTranscript.partText (drop (S k) parts)))) = true.
Proof.
  revert consumed k. induction parts as [|p parts IH]; intros consumed k Hb Hk.
  - discriminate.
  - destruct Hb as [Hhere Hrest]. destruct k as [|k].
    + simpl in Hk. injection Hk as ->. simpl. rewrite app_nil_r.
      rewrite drop_0. exact Hhere.
    + simpl in Hk. destruct (IH _ _ Hrest Hk) as [Hstart Hend].
      simpl. rewrite <- app_assoc in Hstart. split; assumption.
Qed.

(** X22. Only whole words are highlighted: of the code unit before a
    highlight and its first one exactly one is a word character (a letter of
    [A-Za-z], a digit or an underscore; the start of the message counts as
    none), and so for its last code unit and the one after it. *)
Theorem highlightSlangInText_whole_words (text : jsstring) (k index : nat)
    (matched : jsstring) (title : option jsstring) :
  SessionTranscript.highlightSlangInText text !! k
  = Some (SessionTranscript.Slang index matched title) ->
  SessionTranscript.wordBoundary (last (take index text)) (head matched) = true /\
  SessionTranscript.wordBoundary
    (last matched) (head (drop (index + length matched) text)) = true.
Proof.
  intros Hk. destruct (highlight_split text k index matched title Hk)
    as [Hindex Htext].
  destruct (highlight_invariant text) as (_ & _ & Hb).
  destruct (boundedBy_lookup [] _ _ _ _ _ Hb Hk) as [Hstart Hend].
  simpl in Hstart. split.
  - rewrite Htext at 1. rewrite Hindex, take_app_length. exact Hstart.
  - rewrite Htext at 1. rewrite Hindex, app_assoc, <- length_app.
    rewrite drop_app_length. exact Hend.
Qed.

Lemma highlightSlangInText_whole_words_witness :
  SessionTranscript.highlightSlangInText (str "ta mate") !! 2
  = Some (SessionTranscript.Slang 3 (str "mate") (Some (str "Friend/Buddy"))) /\
  (SessionTranscript.wordBoundary
     (last (take 3 (str "ta mate"))) (head (str "mate")) = true /\
   SessionTranscript.wordBoundary
     (last (str "mate")) (head (drop (3 + length (str "mate")) (str "ta mate")))
   = true).
Proof.
  split; [vm_compute; reflexivity|].
  apply (highlightSlangInText_whole_words (str "ta mate") 2 3 (str "mate")
           (Some (str "Friend/Buddy"))).
  vm_compute. reflexivity.
Defined.

Example highlight_inside_a_longer_word :
  SessionTranscript.highlightSlangInText (str "matey ta_ ta-da MATE")
  = [ SessionTranscript.Text (str "matey ta_ ");
      SessionTranscript.Slang 10 (str "ta") (Some (str "Thank you"));
      SessionTranscript.Text (str "-da ");
      SessionTranscript.Slang 16 (str "MATE") (Some (str "Friend/Buddy")) ].
Proof. vm_compute. reflexivity. Qed.

Example highlight_empty_message :
  SessionTranscript.highlightSlangInText [] = [SessionTranscript.Text []].
Proof. reflexivity. Qed.
